(** * Greedy versus exhaustive armor selection (maxtime.hh)

    A shallow embedding of [get_binary], [sum_armor_vector],
    [greedy_max_defense] and [exhaustive_max_defense], and the properties
    of the two optimizers.

    Numbers.  The C++ [double]s (costs, defense points, the gold budget) are
    read as exact rationals [Q]: rounding, infinities and NaN are outside of
    this model.  A statement that compares sums taken in different orders
    is true of the doubles only where their sums are exact, and assumes so
    ([exact_sums]).  The C++ [int]s are integers [Z]; a statement applies a
    function to the values that its [int] parameters can hold.  Two operations on them can
    leave the 32-bit range: the conversion [const int n = armors.size()] and
    the doubling [pn *= 2]; both are wrapped with [int_wrap], which is what
    two's complement hardware does (for the signed multiplication the
    language itself leaves the behaviour undefined).

    Failures.  An [assert] that does not hold and an index past the end of
    a [std::string] or [std::vector] end the run: the functions that can
    meet one return an [outcome]. *)

From Stdlib Require Import ZArith QArith Lia Lqa Ascii String.
From stdpp Require Import base list numbers sorting gmap.

Local Open Scope Z_scope.

(** ** Failures *)

Inductive failure : Type :=
  | assertion_failure   (* assert(...) does not hold *)
  | out_of_range.       (* operator[] past the end *)

Inductive outcome (A : Type) : Type :=
  | Ok (a : A)
  | Fail (f : failure).
Arguments Ok {A} a.
Arguments Fail {A} f.

#[global] Instance outcome_ret : MRet outcome := fun _ a => Ok a.
#[global] Instance outcome_bind : MBind outcome := fun _ _ k m =>
  match m with
  | Ok a => k a
  | Fail f => Fail f
  end.

(** A [for] loop whose body can fail: the body is run on the elements of
    [l] from left to right, and the first failure ends the loop. *)
Fixpoint for_each {A B : Type} (body : A → B → outcome A) (a : A) (l : list B)
    : outcome A :=
  match l with
  | [] => Ok a
  | x :: l' => a' ← body a x; for_each body a' l'
  end.

(** ** Numbers *)

(** A 32-bit two's complement [int]. *)
Definition INT_MIN : Z := - 2 ^ 31.
Definition INT_MAX : Z := 2 ^ 31 - 1.
Definition int_wrap (z : Z) : Z := (z + 2 ^ 31) mod 2 ^ 32 - 2 ^ 31.

(** [x < y] on doubles, as a boolean. *)
Definition Qlt_bool (x y : Q) : bool := negb (Qle_bool y x).

(** ** Armor items *)

Record ArmorItem : Type := mkArmorItem {
  description : string;
  cost : Q;
  defense : Q
}.

Abbreviation ArmorVector := (list ArmorItem).

(** The constructor asserts [cost_gold > 0]: vectors of constructed items
    have positive costs. *)
Abbreviation positive_costs := (Forall (fun a : ArmorItem => 0 < cost a)%Q).

(** [v[i]] on a vector. *)
Definition item_at (v : ArmorVector) (i : nat) : outcome ArmorItem :=
  match v !! i with
  | Some a => Ok a
  | None => Fail out_of_range
  end.

(** [s[i]] on a string: [s[s.size()]] is the terminating zero character,
    anything further is out of range. *)
Definition char_at (s : list ascii) (i : nat) : outcome ascii :=
  match s !! i with
  | Some c => Ok c
  | None => if decide (i = length s) then Ok zero else Fail out_of_range
  end.

(** ** sum_armor_vector *)

(** [total_cost += armor->cost(); total_defense += armor->defense();] *)
Definition add_item (totals : Q * Q) (armor : ArmorItem) : Q * Q :=
  ((totals.1 + cost armor)%Q, (totals.2 + defense armor)%Q).

Definition sum_armor_vector (armors : ArmorVector) : Q * Q :=
  foldl add_item (0%Q, 0%Q) armors.

Definition total_cost_of (armors : ArmorVector) : Q := (sum_armor_vector armors).1.
Definition total_defense_of (armors : ArmorVector) : Q := (sum_armor_vector armors).2.

(** ** get_binary *)

(** ['0' + rem] *)
Definition digit_char (rem : Z) : ascii := ascii_of_N (Z.to_N (48 + rem)).

(** [while (num != 0) { rem = num % 2; bin_str += '0' + rem; num /= 2; }]
    The result is the final [num] and the final [bin_str]. *)
Fixpoint get_binary_digits (fuel : nat) (num : Z) (bin_str : list ascii)
    : Z * list ascii :=
  match fuel with
  | O => (num, bin_str)
  | S fuel' =>
      if decide (num ≠ 0) then
        let rem := Z.rem num 2 in
        get_binary_digits fuel' (Z.quot num 2) (bin_str ++ [digit_char rem])
      else (num, bin_str)
  end.

(** Enough iterations for the loop above to reach [num = 0]
    (see [get_binary_digits_exit]). *)
Definition digits_fuel (num : Z) : nat := S (Z.to_nat (Z.log2 (Z.abs num))).

(** [std::swap(s[i], s[j])] *)
Definition swap_chars (i j : nat) (s : list ascii) : list ascii :=
  match s !! i, s !! j with
  | Some a, Some b => <[j:=a]> (<[i:=b]> s)
  | _, _ => s
  end.

(** [num] and [len] are [int]s: the code can pass the values from
    [INT_MIN] to [INT_MAX] only. *)
Definition get_binary (num len : Z) : list ascii :=
  (* getting reverse binary *)
  let bin_str := (get_binary_digits (digits_fuel num) num []).2 in
  (* fixing length *)
  let sz := Z.of_nat (length bin_str) in
  let bin_str := bin_str ++ replicate (Z.to_nat (len - sz)) "0"%char in
  (* fixing reverse *)
  foldl (fun s i => swap_chars i (Z.to_nat (len - 1 - Z.of_nat i)) s)
        bin_str (seq 0 (Z.to_nat (Z.quot len 2))).

(** ** greedy_max_defense *)

(** The inner [for] loop: the state is [loop_pos], [max_ratio] and
    [optimal_choice_pos]. *)
Definition scan_step (st : nat * Q * nat) (armor : ArmorItem) : nat * Q * nat :=
  let '(loop_pos, max_ratio, optimal_choice_pos) := st in
  if decide (loop_pos = 0%nat) then
    (S loop_pos, (defense armor / cost armor)%Q, loop_pos)
  else
    let cur_ratio := (defense armor / cost armor)%Q in
    if Qlt_bool max_ratio cur_ratio then (S loop_pos, cur_ratio, loop_pos)
    else (S loop_pos, max_ratio, optimal_choice_pos).

Definition scan (source : ArmorVector) : nat * Q * nat :=
  foldl scan_step (0%nat, 0%Q, 0%nat) source.

Record greedy_state : Type := mkGreedy {
  g_source : ArmorVector;
  g_current_cost : Q;
  g_output : ArmorVector
}.

(** One iteration of the [while] loop. *)
Definition greedy_step (total_cost : Q) (st : greedy_state) : outcome greedy_state :=
  let optimal_choice_pos := (scan (g_source st)).2 in
  chosen ← item_at (g_source st) optimal_choice_pos;
  let st' :=
    (* check fitting condition *)
    if Qle_bool (g_current_cost st + cost chosen) total_cost then
      mkGreedy (g_source st) (g_current_cost st + cost chosen)%Q
               (g_output st ++ [chosen])
    else st in
  Ok (mkGreedy (delete optimal_choice_pos (g_source st'))
               (g_current_cost st') (g_output st')).

(** [while (!source.empty())]: every iteration erases one element, so
    [length source] iterations reach the exit (see [greedy_loop_exit]). *)
Fixpoint greedy_loop (fuel : nat) (total_cost : Q) (st : greedy_state)
    : outcome greedy_state :=
  match fuel with
  | O => Ok st
  | S fuel' =>
      if decide (g_source st ≠ []) then
        st' ← greedy_step total_cost st; greedy_loop fuel' total_cost st'
      else Ok st
  end.

Definition greedy_max_defense (armors : ArmorVector) (total_cost : Q)
    : outcome ArmorVector :=
  st ← greedy_loop (length armors) total_cost (mkGreedy armors 0%Q []);
  Ok (g_output st).

(** ** exhaustive_max_defense *)

(** [int pn = 1; for (int i = 0; i < n; i++) pn *= 2;]
    From the 31st doubling on the product does not fit an [int]. *)
Definition power_set_size (n : Z) : Z :=
  Nat.iter (Z.to_nat n) (fun pn => int_wrap (pn * 2)) 1.

Definition is_one (c : ascii) : bool := Ascii.eqb c "1"%char.

(** The cost and the defense of the subset that a bitmask string selects:
    [for (int j = 0; j < n; j++) if (bitmask_string[j] == '1') ...] *)
Definition subset_totals (armors : ArmorVector) (bitmask_string : list ascii) (n : Z)
    : outcome (Q * Q) :=
  for_each (fun '(current_cost, current_defense) j =>
              c ← char_at bitmask_string j;
              if is_one c then
                armor ← item_at armors j;
                Ok ((current_cost + cost armor)%Q, (current_defense + defense armor)%Q)
              else Ok (current_cost, current_defense))
           (0%Q, 0%Q) (seq 0 (Z.to_nat n)).

(** One iteration of the loop over the subsets; the state is
    [best_defense] and [best_set]. *)
Definition exhaustive_step (armors : ArmorVector) (total_cost : Q) (n : Z)
    (st : Q * list ascii) (i : Z) : outcome (Q * list ascii) :=
  let bitmask_string := get_binary i n in
  totals ← subset_totals armors bitmask_string n;
  (* filtering the optimal option *)
  if Qle_bool totals.1 total_cost && Qlt_bool st.1 totals.2
  then Ok (totals.2, bitmask_string)
  else Ok st.

(** The values of [i] for which the loop body runs:
    [for (int i = 0; i < pn; i++)]. *)
Definition enumeration (n : Z) : list Z := seqZ 0 (power_set_size n).

(** [for (int i = 0; i < n; i++) if (best_set[i] == '1') output.push_back(armors[i]);] *)
Definition collect (armors : ArmorVector) (best_set : list ascii) (n : Z)
    : outcome ArmorVector :=
  for_each (fun output i =>
              c ← char_at best_set i;
              if is_one c then armor ← item_at armors i; Ok (output ++ [armor])
              else Ok output)
           [] (seq 0 (Z.to_nat n)).

Definition exhaustive_max_defense (armors : ArmorVector) (total_cost : Q)
    : outcome ArmorVector :=
  let n := int_wrap (Z.of_nat (length armors)) in
  if decide (n < 64) then
    best ← for_each (exhaustive_step armors total_cost n) ((-1)%Q, []) (enumeration n);
    collect armors best.2 n
  else Fail assertion_failure.

(** ** Test data *)

Definition item (c d : Z) : ArmorItem := mkArmorItem "armor" (inject_Z c) (inject_Z d).

Definition scenario : ArmorVector := [item 10 60; item 20 100; item 30 120].

(** ** Auxiliary notions used in the statements *)

Definition bit_char (b : bool) : ascii := if b then "1"%char else "0"%char.

(** The [k] low bits of [num], least significant first. *)
Definition bits_of (k : nat) (num : Z) : list ascii :=
  (fun j : nat => bit_char (Z.testbit num (Z.of_nat j))) <$> seq 0 k.

(** The items that a bitmask string selects, in the order of the vector. *)
Fixpoint select (bitmask : list ascii) (armors : ArmorVector) : ArmorVector :=
  match bitmask, armors with
  | c :: bitmask', armor :: armors' =>
      if is_one c then armor :: select bitmask' armors' else select bitmask' armors'
  | _, _ => []
  end.

(** The subset that the loops of [exhaustive_max_defense] read off the
    bitmask string of [i]: index [j] below [n] is a member when
    [bitmask_string[j] == '1']. *)
Definition is_member (n i : Z) (j : nat) : bool :=
  match char_at (get_binary i n) j with
  | Ok c => is_one c
  | Fail _ => false
  end.

Definition decoded_subset (n i : Z) : gset nat :=
  list_to_set (filter (fun j => is_member n i j = true) (seq 0 (Z.to_nat n))).

(** The number whose binary numeral, highest bit first, is [bs]. *)
Definition encode (bs : list bool) : Z :=
  foldl (fun acc b => 2 * acc + Z.b2z b) 0 bs.

(** The subset of the first [n] items that the bitmask string of [i]
    selects, as the vector of its items. *)
Definition candidate (armors : ArmorVector) (n i : Z) : ArmorVector :=
  select (get_binary i n) armors.

(** A vector of items fits within the budget. *)
Definition feasible (total_cost : Q) (armors : ArmorVector) : Prop :=
  (total_cost_of armors <= total_cost)%Q.

(** [out] holds the items of [armors] at the positions [idxs], in this order. *)
Definition at_indices (armors : ArmorVector) (idxs : list nat) (out : ArmorVector)
    : Prop :=
  Forall2 (fun j a => armors !! j = Some a) idxs out.

(** Positions listed in strictly ascending order: none of them twice. *)
Definition ascending (idxs : list nat) : Prop := StronglySorted lt idxs.

(** The bitmasks of [n] items. *)
Definition in_range (n i : Z) : Prop := 0 ≤ i < 2 ^ Z.of_nat (Z.to_nat n).

(** What the loop over the subsets has established once the bitmasks below
    [k] are done: [best_defense] bounds the defense of every feasible
    subset seen, and either nothing is recorded yet or [best_set] is the
    bitmask string of the first feasible subset that reaches it. *)
Definition best_so_far (armors : ArmorVector) (total_cost : Q) (n k : Z)
    (st : Q * list ascii) : Prop :=
  (∀ i, 0 ≤ i < k → feasible total_cost (candidate armors n i) →
        (total_defense_of (candidate armors n i) <= st.1)%Q) ∧
  (-1 <= st.1)%Q ∧
  (st = ((-1)%Q, []) ∨
   ∃ i, 0 ≤ i < k ∧ feasible total_cost (candidate armors n i) ∧
        st = (total_defense_of (candidate armors n i), get_binary i n) ∧
        ∀ i', 0 ≤ i' < i → feasible total_cost (candidate armors n i') →
              (total_defense_of (candidate armors n i') < st.1)%Q).

(** ** The greedy process as the specification words it

    The value-to-cost ratio of an item, the choice of "the remaining item
    with the maximum ratio, the first index winning on ties", and the
    process that accepts or rejects the chosen item and removes it from
    the working copy in both cases, until the working copy is empty. *)

Definition ratio (a : ArmorItem) : Q := (defense a / cost a)%Q.

(** No item of the working copy has a greater ratio than [a]. *)
Definition has_max_ratio (working : ArmorVector) (a : ArmorItem) : Prop :=
  Forall (fun b => (ratio b <= ratio a)%Q) working.

#[global] Instance Qle_decision (x y : Q) : Decision (x <= y)%Q.
Proof.
  destruct (Qlt_le_dec y x) as [H|H]; [right | left].
  - by apply Qlt_not_le.
  - done.
Defined.

#[global] Instance has_max_ratio_decision working a :
  Decision (has_max_ratio working a).
Proof. unfold has_max_ratio. apply _. Defined.

Fixpoint reference_process (steps : nat) (budget : Q) (working : ArmorVector)
    (current_cost : Q) (output : ArmorVector) : ArmorVector :=
  match steps with
  | O => output
  | S steps' =>
      match list_find (has_max_ratio working) working with
      | None => output   (* the working copy is empty *)
      | Some (pos, chosen) =>
          if decide (current_cost + cost chosen <= budget)%Q then
            reference_process steps' budget (delete pos working)
                              (current_cost + cost chosen)%Q (output ++ [chosen])
          else
            reference_process steps' budget (delete pos working)
                              current_cost output
      end
  end.

Definition greedy_reference (armors : ArmorVector) (budget : Q) : ArmorVector :=
  reference_process (length armors) budget armors 0%Q [].

(** ** The constructor of ArmorItem *)

(** [ArmorItem(description, cost_gold, defense_points)] with its two
    assertions, [!description.empty()] and [cost_gold > 0]. *)
Definition new_ArmorItem (description : string) (cost_gold defense_points : Q)
    : outcome ArmorItem :=
  if decide (description ≠ EmptyString) then
    if Qlt_bool 0 cost_gold then
      Ok (mkArmorItem description cost_gold defense_points)
    else Fail assertion_failure
  else Fail assertion_failure.

(** What the constructor has checked of an item that exists. *)
Definition constructed (a : ArmorItem) : Prop :=
  description a ≠ EmptyString ∧ (0 < cost a)%Q.

(** ** filter_armor_vector *)

(** [d > 0 && d >= min_defense && d <= max_defense] *)
Definition in_defense_range (min_defense max_defense : Q) (armor : ArmorItem) : bool :=
  let d := defense armor in
  Qlt_bool 0 d && Qle_bool min_defense d && Qle_bool d max_defense.

(** The body of the loop; the state is [current_size] and [output].  The
    counter stays below [total_size], an [int], so [current_size++] cannot
    overflow. *)
Definition filter_step (min_defense max_defense : Q) (total_size : Z)
    (st : Z * ArmorVector) (armor : ArmorItem) : outcome (Z * ArmorVector) :=
  let '(current_size, output) := st in
  if in_defense_range min_defense max_defense armor && (current_size <? total_size)
  then
    copy ← new_ArmorItem (description armor) (cost armor) (defense armor);
    Ok (current_size + 1, output ++ [copy])
  else Ok st.

Definition filter_armor_vector (source : ArmorVector) (min_defense max_defense : Q)
    (total_size : Z) : outcome ArmorVector :=
  st ← for_each (filter_step min_defense max_defense total_size) (0, []) source;
  Ok st.2.

(** ** load_armor_database

    The file is the text that the stream delivers, or nothing when it cannot
    be opened.  Reading a number, [ss >> output], is left to the parameter
    [parse_double]: the value that the extraction leaves in [output] (zero
    when no number can be read).  That holds of a field with something to
    read: on a field that is empty or blank the extraction writes nothing
    and the source goes on with the variable as it was, which no function
    of the field gives; the statements that depend on the numbers leave
    such fields out ([numbers_present]).  The function returns [None] for
    the null pointer; a failed assertion of the constructor ends the run. *)

(** The characters up to the first delimiter, and what follows it. *)
Fixpoint getline_from (delim : ascii) (s : string) : string * string :=
  match s with
  | EmptyString => (EmptyString, EmptyString)
  | String c s' =>
      if Ascii.eqb c delim then (EmptyString, s')
      else let '(field, rest) := getline_from delim s' in (String c field, rest)
  end.

(** [std::getline(in, field, delim)] on a stream with the characters [s]
    left: the call fails when nothing is left, else it gives the characters
    before the delimiter and leaves those after it. *)
Definition getline (delim : ascii) (s : string) : option (string * string) :=
  match s with
  | EmptyString => None
  | _ => Some (getline_from delim s)
  end.

(** [for (std::string field; std::getline(ss, field, '^'); ) fields.push_back(field);] *)
Fixpoint read_fields (fuel : nat) (ss : string) (fields : list string) : list string :=
  match fuel with
  | O => fields
  | S fuel' =>
      match getline "^" ss with
      | Some (field, ss') => read_fields fuel' ss' (fields ++ [field])
      | None => fields
      end
  end.

(** Every successful call takes a character off the stream: [length line]
    calls are enough (see [read_fields_steps]). *)
Definition split_fields (line : string) : list string :=
  read_fields (String.length line) line [].

(** The lambda [parse_dbl]: a fresh string stream is never in a failed
    state, so the result is always [true]. *)
Definition parse_dbl (parse_double : string → Q) (field : string) : bool * Q :=
  (true, parse_double field).

(** The body of the loop over the lines, for a line that is not the header:
    [None] is the early [return failure]. *)
Definition load_line (parse_double : string → Q) (line : string)
    (result : ArmorVector) : outcome (option ArmorVector) :=
  let fields := split_fields line in
  if decide (length fields ≠ 3%nat) then Ok None
  else
    let descr_field := default EmptyString (fields !! 0%nat) in
    let cost_gold_field := default EmptyString (fields !! 1%nat) in
    let defense_points_field := default EmptyString (fields !! 2%nat) in
    let '(ok_cost, cost_gold) := parse_dbl parse_double cost_gold_field in
    let '(ok_defense, defense_points) := parse_dbl parse_double defense_points_field in
    if ok_cost && ok_defense then
      armor ← new_ArmorItem descr_field cost_gold defense_points;
      Ok (Some (result ++ [armor]))
    else Ok (Some result).

(** [for (std::string line; std::getline(f, line); )] with the line counter. *)
Fixpoint load_loop (fuel : nat) (parse_double : string → Q) (f : string)
    (line_number : nat) (result : ArmorVector) : outcome (option ArmorVector) :=
  match fuel with
  | O => Ok (Some result)
  | S fuel' =>
      match getline "010" f with
      | None => Ok (Some result)
      | Some (line, f') =>
          let line_number := S line_number in
          if decide (line_number = 1%nat) then
            load_loop fuel' parse_double f' line_number result
          else
            r ← load_line parse_double line result;
            match r with
            | None => Ok None
            | Some result' => load_loop fuel' parse_double f' line_number result'
            end
      end
  end.

Definition load_armor_database (parse_double : string → Q) (file : option string)
    : outcome (option ArmorVector) :=
  match file with
  | None => Ok None
  | Some f => load_loop (String.length f) parse_double f 0 []
  end.

(** The lines of a text, as [std::getline] delivers them. *)
Fixpoint read_lines (fuel : nat) (f : string) : list string :=
  match fuel with
  | O => []
  | S fuel' =>
      match getline "010" f with
      | Some (line, f') => line :: read_lines fuel' f'
      | None => []
      end
  end.

Definition lines_of (f : string) : list string := read_lines (String.length f) f.

(** Fields written one after the other with ['^'] between them. *)
Fixpoint join_fields (fields : list string) : string :=
  match fields with
  | [] => EmptyString
  | [field] => field
  | field :: fields' => (field ++ String "^" (join_fields fields'))%string
  end.

(** The character ['^'] does not occur in [s]. *)
Fixpoint no_caret (s : string) : Prop :=
  match s with
  | EmptyString => True
  | String c s' => c ≠ "^"%char ∧ no_caret s'
  end.

(** A line of the database that [load_armor_database] can turn into an item. *)
Definition item_of_line (parse_double : string → Q) (line : string)
    : option ArmorItem :=
  match split_fields line with
  | [d; c; v] =>
      if decide (d ≠ EmptyString) then
        if Qlt_bool 0 (parse_double c) then
          Some (mkArmorItem d (parse_double c) (parse_double v))
        else None
      else None
  | _ => None
  end.

(** The loop of [load_armor_database] over the lines after the header. *)
Fixpoint load_lines (parse_double : string → Q) (lines : list string)
    (result : ArmorVector) : outcome (option ArmorVector) :=
  match lines with
  | [] => Ok (Some result)
  | line :: lines' =>
      r ← load_line parse_double line result;
      match r with
      | None => Ok None
      | Some result' => load_lines parse_double lines' result'
      end
  end.

(** The number of binary digits of a number that is not negative. *)
Definition binary_digits (num : Z) : Z :=
  if decide (num = 0) then 0 else Z.log2 num + 1.

(** Vectors ordered from the greatest value-to-cost ratio down. *)
Definition by_ratio (armors : ArmorVector) : Prop :=
  StronglySorted (fun a b => (ratio b <= ratio a)%Q) armors.

(** A reader of unsigned decimal integers, to try [load_armor_database] on
    concrete text: the number that the leading digits of [s] spell, zero
    when there is none. *)
Fixpoint read_digits (acc : N) (s : string) : N :=
  match s with
  | String c s' =>
      let d := N_of_ascii c in
      if ((48 <=? d) && (d <=? 57))%N then read_digits (10 * acc + (d - 48)) s'
      else acc
  | EmptyString => acc
  end.

Definition read_number (s : string) : Q := inject_Z (Z.of_N (read_digits 0 s)).

(** A small database: a header and two items. *)
Definition sample_file : string :=
  ("description^cost^defense" ++ String "010"
   ("helmet^10^60" ++ String "010" ("shield^20^100" ++ String "010" "")))%string.

(** ** Where the model reads the source exactly *)

(** [std::isspace] in the "C" locale: the space and the characters 9 to 13. *)
Definition is_space (c : ascii) : bool :=
  let n := N_of_ascii c in ((n =? 32) || ((9 <=? n) && (n <=? 13)))%N.

(** A field that [ss >> output] finds nothing to read in, white space
    apart: the extraction leaves [output] untouched. *)
Fixpoint blank (s : string) : bool :=
  match s with
  | EmptyString => true
  | String c s' => is_space c && blank s'
  end.

(** The two number fields of a line of three fields are not blank. *)
Definition numbers_present (line : string) : Prop :=
  match split_fields line with
  | [_; c; v] => blank c = false ∧ blank v = false
  | _ => True
  end.

(** A whole number that is not negative. *)
Definition whole (x : Q) : Prop := (0 <= x)%Q ∧ ∃ z : Z, (x == inject_Z z)%Q.

(** Costs and defenses are whole numbers, not negative, with totals below
    [2^53]: every sum of some of them, in any order, is such a number as
    well, and the additions of the doubles are exact. *)
Definition exact_sums (armors : ArmorVector) : Prop :=
  Forall (fun a => whole (cost a) ∧ whole (defense a)) armors
  ∧ (total_cost_of armors < inject_Z (2 ^ 53))%Q
  ∧ (total_defense_of armors < inject_Z (2 ^ 53))%Q.

(* ================================================================= *)
(** * Properties *)

(** ** The failure monad *)

Lemma for_each_app {A B : Type} (body : A → B → outcome A) (a : A) (l k : list B) :
  for_each body a (l ++ k) = (a' ← for_each body a l; for_each body a' k).
Proof.
  revert a. induction l as [|x l IH]; intros a; simpl; [done|].
  destruct (body a x) as [a'|f]; simpl; [apply IH | done].
Qed.

(** ** int arithmetic *)

Lemma int_wrap_id (z : Z) : INT_MIN ≤ z ≤ INT_MAX → int_wrap z = z.
Proof.
  unfold INT_MIN, INT_MAX, int_wrap. intros H.
  rewrite Z.mod_small; lia.
Qed.

(** ** get_binary *)

Lemma digit_char_rem (num : Z) :
  0 ≤ num → digit_char (Z.rem num 2) = bit_char (Z.odd num).
Proof.
  intros H. rewrite Z.rem_mod_nonneg by lia. rewrite Zmod_odd.
  by destruct (Z.odd num).
Qed.

Lemma bits_of_S (k : nat) (num : Z) :
  bits_of (S k) num = bit_char (Z.odd num) :: bits_of k (num / 2).
Proof.
  unfold bits_of. rewrite <- cons_seq. rewrite fmap_cons. f_equal.
  rewrite <- fmap_S_seq, <- list_fmap_compose. apply list_fmap_ext.
  intros _ j _. unfold compose. f_equal.
  rewrite Z.div2_bits by lia. f_equal. lia.
Qed.

Lemma length_bits_of (k : nat) (num : Z) : length (bits_of k num) = k.
Proof. unfold bits_of. by rewrite length_fmap, length_seq. Qed.

Lemma lookup_bits_of (k : nat) (num : Z) (j : nat) :
  (j < k)%nat → bits_of k num !! j = Some (bit_char (Z.testbit num (Z.of_nat j))).
Proof.
  intros H. unfold bits_of. rewrite list_lookup_fmap, lookup_seq_lt by done.
  done.
Qed.

(** The [while] loop of [get_binary] on a non-negative number: it reaches
    [num = 0], having appended the binary digits, lowest first, up to the
    highest one that is set. *)
Lemma get_binary_digits_nonneg (fuel : nat) (num : Z) (s : list ascii) :
  0 ≤ num < 2 ^ Z.of_nat fuel →
  ∃ m : nat,
    get_binary_digits fuel num s = (0, s ++ bits_of m num) ∧
    num < 2 ^ Z.of_nat m ∧
    (m = 0%nat ∨ 2 ^ (Z.of_nat m - 1) ≤ num).
Proof.
  revert num s. induction fuel as [|fuel IH]; intros num s Hnum.
  - exists 0%nat. simpl in *. assert (num = 0) as -> by lia.
    split; [by rewrite app_nil_r | split; [done | by left]].
  - simpl. destruct (decide (num ≠ 0)) as [Hnz|Hz].
    + destruct (IH (Z.quot num 2) (s ++ [digit_char (Z.rem num 2)]))
        as (m & Heq & Hlt & Hm).
      { rewrite Z.quot_div_nonneg by lia.
        rewrite Nat2Z.inj_succ, Z.pow_succ_r in Hnum by lia.
        split; [apply Z.div_pos; lia | apply Z.div_lt_upper_bound; lia]. }
      rewrite Z.quot_div_nonneg in Hlt, Hm by lia.
      pose proof (Z.mul_div_le num 2 ltac:(lia)) as Hlo.
      pose proof (Z.mul_succ_div_gt num 2 ltac:(lia)) as Hhi.
      exists (S m). rewrite Heq. split; [|split].
      * rewrite <- app_assoc. simpl. rewrite bits_of_S.
        rewrite digit_char_rem, Z.quot_div_nonneg by lia. done.
      * rewrite Nat2Z.inj_succ, Z.pow_succ_r by lia. lia.
      * right. replace (Z.of_nat (S m) - 1) with (Z.of_nat m) by lia.
        destruct m as [|m]; [simpl; lia|].
        destruct Hm as [?|Hm]; [done|].
        replace (Z.of_nat (S m)) with (Z.succ (Z.of_nat (S m) - 1)) by lia.
        rewrite Z.pow_succ_r; lia.
    + exists 0%nat. assert (num = 0) as -> by lia.
      split; [by rewrite app_nil_r | split; [done | by left]].
Qed.

Lemma digits_fuel_enough (num : Z) : 0 ≤ num → num < 2 ^ Z.of_nat (digits_fuel num).
Proof.
  intros H. unfold digits_fuel.
  destruct (decide (num = 0)) as [->|Hnz]; [done|].
  rewrite Nat2Z.inj_succ, Z.abs_eq, Z2Nat.id by (try apply Z.log2_nonneg; lia).
  apply Z.log2_spec. lia.
Qed.

(** The loop always reaches its exit condition. *)
Lemma get_binary_digits_exit (num : Z) (s : list ascii) :
  (get_binary_digits (digits_fuel num) num s).1 = 0.
Proof.
  assert (∀ fuel n s, Z.abs n < 2 ^ Z.of_nat fuel → (get_binary_digits fuel n s).1 = 0) as H.
  { clear. induction fuel as [|fuel IH]; intros n s Hn.
    - simpl in *. lia.
    - simpl. destruct (decide (n ≠ 0)); [|simpl; lia].
      apply IH. rewrite Nat2Z.inj_succ, Z.pow_succ_r in Hn by lia.
      pose proof (Z.quot_abs n 2 ltac:(lia)) as Hq. rewrite <- Hq.
      change (Z.abs 2) with 2.
      rewrite Z.quot_div_nonneg by lia.
      apply Z.div_lt_upper_bound; lia. }
  apply H. unfold digits_fuel.
  destruct (decide (num = 0)) as [->|Hnz]; [done|].
  rewrite Nat2Z.inj_succ, Z2Nat.id by apply Z.log2_nonneg.
  apply Z.log2_spec. lia.
Qed.

(** Padding with zeros gives the low bits of the number. *)
Lemma bits_of_pad (m k : nat) (num : Z) :
  0 ≤ num < 2 ^ Z.of_nat m → (m ≤ k)%nat →
  bits_of m num ++ replicate (k - m) "0"%char = bits_of k num.
Proof.
  intros Hnum Hle. apply list_eq. intros j.
  destruct (decide (j < k)%nat) as [Hj|Hj].
  - rewrite (lookup_bits_of k) by done.
    destruct (decide (j < m)%nat) as [Hjm|Hjm].
    + rewrite lookup_app_l by (rewrite length_bits_of; done).
      by apply lookup_bits_of.
    + rewrite lookup_app_r by (rewrite length_bits_of; lia).
      rewrite length_bits_of.
      assert (Z.testbit num (Z.of_nat j) = false) as ->.
      { rewrite <- (Z.mod_small num (2 ^ Z.of_nat m)) by lia.
        apply Z.mod_pow2_bits_high. lia. }
      apply lookup_replicate. split; [done | lia].
  - rewrite !lookup_ge_None_2; [done | |].
    + rewrite length_bits_of. lia.
    + rewrite length_app, length_bits_of, length_replicate. lia.
Qed.

(** The swap loop, after [k] of its iterations on a string [s] of length
    [l]: the [k] characters at each end are exchanged in mirror order. *)
Lemma length_swap_loop (l : nat) (idxs : list nat) (s : list ascii) :
  length (foldl (fun s i => swap_chars i (l - 1 - i) s) s idxs) = length s.
Proof.
  revert s. induction idxs as [|i idxs IH]; intros s; [done|].
  simpl. rewrite IH. unfold swap_chars.
  destruct (s !! i), (s !! (l - 1 - i)%nat); by rewrite ?length_insert.
Qed.

Lemma swap_loop_lookup (l : nat) (s : list ascii) (k j : nat) :
  length s = l → (2 * k ≤ l)%nat → (j < l)%nat →
  foldl (fun s i => swap_chars i (l - 1 - i) s) s (seq 0 k) !! j =
  if decide (j < k ∨ l - k ≤ j)%nat then s !! (l - 1 - j)%nat else s !! j.
Proof.
  intros Hlen. revert j. induction k as [|k IH]; intros j Hk Hj.
  - simpl. case_decide as Hc; [lia|done].
  - rewrite seq_S, foldl_snoc. simpl.
    set (s' := foldl _ s (seq 0 k)) in *.
    assert (length s' = l) as Hlen'.
    { subst s'. by rewrite length_swap_loop. }
    unfold swap_chars.
    pose proof (IH k ltac:(lia) ltac:(lia)) as Hk1.
    pose proof (IH (l - 1 - k)%nat ltac:(lia) ltac:(lia)) as Hk2.
    rewrite decide_False in Hk1 by lia. rewrite decide_False in Hk2 by lia.
    rewrite Hk1, Hk2.
    destruct (lookup_lt_is_Some_2 s k ltac:(lia)) as [a Ha].
    destruct (lookup_lt_is_Some_2 s (l - 1 - k)%nat ltac:(lia)) as [b Hb].
    rewrite Ha, Hb.
    rewrite !list_lookup_insert. rewrite !length_insert, Hlen'.
    rewrite IH by lia.
    repeat case_decide; try lia; try done.
    + rewrite <- Ha. f_equal. lia.
    + rewrite <- Hb. f_equal. lia.
Qed.

Lemma swap_loop_reverse (s : list ascii) :
  foldl (fun s' i => swap_chars i (length s - 1 - i) s') s (seq 0 (length s / 2))
  = reverse s.
Proof.
  apply list_eq. intros j.
  pose proof (Nat.div_mod_eq (length s) 2) as Hdiv.
  pose proof (Nat.mod_upper_bound (length s) 2 ltac:(lia)) as Hmod.
  destruct (decide (j < length s)%nat) as [Hj|Hj].
  - rewrite swap_loop_lookup by (done || lia).
    rewrite reverse_lookup by done.
    replace (length s - S j)%nat with (length s - 1 - j)%nat by lia.
    case_decide as Hc; [done|].
    f_equal. lia.
  - rewrite !lookup_ge_None_2; [done| |].
    + rewrite length_reverse. lia.
    + rewrite length_swap_loop. lia.
Qed.

Lemma foldl_ext_in {A B : Type} (f g : A → B → A) (a : A) (l : list B) :
  (∀ a' x, x ∈ l → f a' x = g a' x) → foldl f a l = foldl g a l.
Proof.
  revert a. induction l as [|x l IH]; intros a H; [done|].
  simpl. rewrite H by left. apply IH. intros a' y Hy. apply H. by right.
Qed.

(** [get_binary i n] is the [n]-digit binary numeral of [i], highest bit
    first. *)
Lemma get_binary_spec (i n : Z) :
  0 ≤ i < 2 ^ Z.of_nat (Z.to_nat n) →
  get_binary i n = reverse (bits_of (Z.to_nat n) i).
Proof.
  intros Hi. unfold get_binary.
  destruct (get_binary_digits_nonneg (digits_fuel i) i [])
    as (m & -> & Hlt & Hmin).
  { split; [lia | apply digits_fuel_enough; lia]. }
  simpl. rewrite length_bits_of.
  assert (m ≤ Z.to_nat n)%nat as Hm.
  { destruct Hmin as [->|Hmin]; [lia|].
    destruct (decide (m ≤ Z.to_nat n)%nat); [done|].
    assert (2 ^ Z.of_nat (Z.to_nat n) ≤ 2 ^ (Z.of_nat m - 1)); [|lia].
    apply Z.pow_le_mono_r; lia. }
  replace (Z.to_nat (n - Z.of_nat m)) with (Z.to_nat n - m)%nat by lia.
  rewrite bits_of_pad by (done || lia).
  destruct (decide (0 ≤ n)) as [Hn|Hn].
  - rewrite <- swap_loop_reverse. rewrite length_bits_of.
    rewrite Z.quot_div_nonneg by lia.
    replace (Z.to_nat (n `div` 2)) with (Z.to_nat n / 2)%nat
      by (rewrite Z2Nat.inj_div by lia; done).
    apply foldl_ext_in. intros s j _. f_equal. lia.
  - replace (Z.to_nat n) with 0%nat by lia.
    replace (Z.to_nat (Z.quot n 2)) with 0%nat; [done|].
    pose proof (Z.quot_opp_l n 2 ltac:(lia)) as Hq.
    pose proof (Z.quot_pos (- n) 2 ltac:(lia) ltac:(lia)). lia.
Qed.

Lemma length_get_binary (i n : Z) :
  0 ≤ i < 2 ^ Z.of_nat (Z.to_nat n) → length (get_binary i n) = Z.to_nat n.
Proof.
  intros Hi. by rewrite get_binary_spec, length_reverse, length_bits_of.
Qed.

Lemma lookup_get_binary (i n : Z) (j : nat) :
  0 ≤ i < 2 ^ Z.of_nat (Z.to_nat n) → (j < Z.to_nat n)%nat →
  get_binary i n !! j = Some (bit_char (Z.testbit i (n - 1 - Z.of_nat j))).
Proof.
  intros Hi Hj. rewrite get_binary_spec by done.
  rewrite reverse_lookup by (rewrite length_bits_of; done).
  rewrite length_bits_of, lookup_bits_of by lia.
  do 3 f_equal. lia.
Qed.

(** ** Bitmasks and subsets *)

Lemma encode_range (bs : list bool) : 0 ≤ encode bs < 2 ^ Z.of_nat (length bs).
Proof.
  induction bs as [|b bs IH] using rev_ind; [done|].
  unfold encode in *. rewrite foldl_snoc, length_app. simpl.
  replace (Z.of_nat (length bs + 1)) with (Z.succ (Z.of_nat (length bs))) by lia.
  rewrite Z.pow_succ_r by lia. destruct b; simpl; lia.
Qed.

Lemma testbit_encode (bs : list bool) (k : nat) :
  Z.testbit (encode bs) (Z.of_nat k) =
  if decide (k < length bs)%nat then default false (bs !! (length bs - 1 - k)%nat)
  else false.
Proof.
  revert k. induction bs as [|b bs IH] using rev_ind; intros k.
  - simpl. by rewrite Z.bits_0.
  - unfold encode in *. rewrite foldl_snoc, length_app. simpl.
    destruct k as [|k].
    + change (Z.of_nat 0) with 0. rewrite Z.testbit_0_r.
      rewrite decide_True by lia.
      replace (length bs + 1 - 1 - 0)%nat with (length bs + 0)%nat by lia.
      by rewrite lookup_app_r, Nat.add_0_r, Nat.sub_diag by lia.
    + rewrite Nat2Z.inj_succ, Z.testbit_succ_r by lia. rewrite IH.
      case_decide; [rewrite decide_True by lia | rewrite decide_False by lia; done].
      rewrite lookup_app_l by lia. do 2 f_equal. lia.
Qed.

Lemma get_binary_encode (bs : list bool) :
  get_binary (encode bs) (Z.of_nat (length bs)) = bit_char <$> bs.
Proof.
  pose proof (encode_range bs) as Hr.
  apply list_eq. intros j.
  destruct (decide (j < length bs)%nat) as [Hj|Hj].
  - rewrite lookup_get_binary by (rewrite ?Nat2Z.id; done).
    replace (Z.of_nat (length bs) - 1 - Z.of_nat j)
      with (Z.of_nat (length bs - 1 - j)) by lia.
    rewrite testbit_encode, decide_True by lia.
    replace (length bs - 1 - (length bs - 1 - j))%nat with j by lia.
    rewrite list_lookup_fmap.
    destruct (lookup_lt_is_Some_2 bs j Hj) as [b ->]. done.
  - rewrite !lookup_ge_None_2; [done| |].
    + rewrite length_fmap. lia.
    + rewrite length_get_binary by (rewrite ?Nat2Z.id; done). lia.
Qed.

Lemma is_one_bit_char (b : bool) : is_one (bit_char b) = b.
Proof. by destruct b. Qed.

Lemma elem_of_decoded_subset (n i : Z) (j : nat) :
  0 ≤ i < 2 ^ Z.of_nat (Z.to_nat n) →
  j ∈ decoded_subset n i ↔
  (j < Z.to_nat n)%nat ∧ Z.testbit i (n - 1 - Z.of_nat j) = true.
Proof.
  intros Hi. unfold decoded_subset.
  rewrite elem_of_list_to_set, list_elem_of_filter, elem_of_seq.
  split.
  - intros [Hm Hj]. split; [lia|].
    unfold is_member, char_at in Hm.
    rewrite lookup_get_binary in Hm by (done || lia).
    by rewrite is_one_bit_char in Hm.
  - intros [Hj Hb]. split; [|lia].
    unfold is_member, char_at.
    rewrite lookup_get_binary by (done || lia).
    by rewrite is_one_bit_char.
Qed.

Lemma decoded_subset_inj (n i1 i2 : Z) :
  0 ≤ i1 < 2 ^ Z.of_nat (Z.to_nat n) → 0 ≤ i2 < 2 ^ Z.of_nat (Z.to_nat n) →
  decoded_subset n i1 = decoded_subset n i2 → i1 = i2.
Proof.
  intros H1 H2 Heq. apply Z.bits_inj'. intros k Hk.
  destruct (decide (k < Z.of_nat (Z.to_nat n))) as [Hlt|Hge].
  - pose proof (elem_of_decoded_subset n i1 (Z.to_nat (n - 1 - k)) H1) as E1.
    pose proof (elem_of_decoded_subset n i2 (Z.to_nat (n - 1 - k)) H2) as E2.
    rewrite Heq in E1. rewrite E2 in E1.
    replace (n - 1 - Z.of_nat (Z.to_nat (n - 1 - k))) with k in E1 by lia.
    destruct (Z.testbit i1 k), (Z.testbit i2 k); try done.
    + symmetry. apply E1. split; [lia | done].
    + apply E1. split; [lia | done].
  - pose proof (proj1 (Z.bounded_iff_bits_nonneg' (Z.of_nat (Z.to_nat n)) i1
                  ltac:(lia) ltac:(lia)) H1 k ltac:(lia)) as ->.
    pose proof (proj1 (Z.bounded_iff_bits_nonneg' (Z.of_nat (Z.to_nat n)) i2
                  ltac:(lia) ltac:(lia)) H2 k ltac:(lia)) as ->.
    done.
Qed.


(** ** Comparisons on Q *)

Lemma Qlt_bool_iff (x y : Q) : Qlt_bool x y = true ↔ (x < y)%Q.
Proof.
  unfold Qlt_bool. rewrite negb_true_iff.
  split.
  - intros H. apply Qnot_le_lt. intros Hle.
    apply Qle_bool_iff in Hle. congruence.
  - intros H. destruct (Qle_bool y x) eqn:E; [|done].
    apply Qle_bool_iff in E. apply Qlt_not_le in H. done.
Qed.

Lemma Qlt_bool_false (x y : Q) : Qlt_bool x y = false ↔ (y <= x)%Q.
Proof.
  unfold Qlt_bool. rewrite negb_false_iff. apply Qle_bool_iff.
Qed.

Lemma Qle_bool_false (x y : Q) : Qle_bool x y = false ↔ (y < x)%Q.
Proof.
  rewrite <- Qlt_bool_iff. unfold Qlt_bool. by rewrite negb_true_iff.
Qed.

(** ** power_set_size *)

Lemma power_set_size_small (n : Z) :
  n ≤ 30 → power_set_size n = 2 ^ Z.of_nat (Z.to_nat n).
Proof.
  intros Hn. unfold power_set_size.
  assert (Z.to_nat n ≤ 30)%nat as Hk by lia.
  induction (Z.to_nat n) as [|k IH]; [done|].
  simpl Nat.iter. rewrite IH by lia.
  rewrite Nat2Z.inj_succ, Z.pow_succ_r by lia.
  assert (2 ^ Z.of_nat k ≤ 2 ^ 29) by (apply Z.pow_le_mono_r; lia).
  rewrite int_wrap_id; [lia|]. unfold INT_MIN, INT_MAX. lia.
Qed.

Lemma power_set_size_31 : power_set_size 31 = INT_MIN.
Proof. by vm_compute. Qed.

Lemma power_set_size_large (n : Z) : 32 ≤ n → power_set_size n = 0.
Proof.
  intros Hn. unfold power_set_size.
  replace (Z.to_nat n) with (Z.to_nat (n - 32) + 32)%nat by lia.
  induction (Z.to_nat (n - 32)) as [|k IH]; [by vm_compute|].
  simpl. by rewrite IH.
Qed.

(** Whatever value an overflowing [pn] takes, an [int] bound admits fewer
    than [2^31] iterations. *)
Lemma int_loop_bound (pn : Z) :
  pn ≤ INT_MAX → Z.of_nat (length (seqZ 0 pn)) < 2 ^ 31.
Proof. unfold INT_MAX. rewrite length_seqZ. lia. Qed.

(** In every case the loop stays within the [2^n] bitmasks. *)
Lemma power_set_size_le (n : Z) : power_set_size n ≤ 2 ^ Z.of_nat (Z.to_nat n).
Proof.
  destruct (decide (n ≤ 30)) as [H|H].
  - by rewrite power_set_size_small.
  - assert (0 < 2 ^ Z.of_nat (Z.to_nat n)) by (apply Z.pow_pos_nonneg; lia).
    destruct (decide (n = 31)) as [->|H'].
    + rewrite power_set_size_31. unfold INT_MIN. lia.
    + rewrite power_set_size_large by lia. lia.
Qed.

(** ** The loops over a bitmask string *)

Lemma for_each_ext {A B : Type} (f g : A → B → outcome A) (a : A) (l : list B) :
  (∀ a' x, f a' x = g a' x) → for_each f a l = for_each g a l.
Proof.
  intros H. revert a. induction l as [|x l IH]; intros a; [done|].
  simpl. rewrite H. destruct (g a x); simpl; [apply IH | done].
Qed.

Lemma char_at_Some (s : list ascii) (i : nat) (c : ascii) :
  s !! i = Some c → char_at s i = Ok c.
Proof. unfold char_at. by intros ->. Qed.

Lemma item_at_Some (v : ArmorVector) (i : nat) (a : ArmorItem) :
  v !! i = Some a → item_at v i = Ok a.
Proof. unfold item_at. by intros ->. Qed.

(** A loop that visits the positions [k, k+1, ...] of a bitmask string and
    updates an accumulator with the items at the positions that hold ['1']. *)
Lemma for_each_selected {A : Type} (g : A → ArmorItem → A) (armors : ArmorVector)
    (bs : list ascii) (k m : nat) (acc : A) :
  (k + m)%nat = length bs → (length bs ≤ length armors)%nat →
  for_each (fun acc j =>
              c ← char_at bs j;
              if is_one c then armor ← item_at armors j; Ok (g acc armor)
              else Ok acc)
           acc (seq k m)
  = Ok (foldl g acc (select (drop k bs) (drop k armors))).
Proof.
  revert k acc. induction m as [|m IH]; intros k acc Hk Hlen.
  - simpl. rewrite drop_ge by lia. done.
  - destruct (lookup_lt_is_Some_2 bs k ltac:(lia)) as [c Hc].
    destruct (lookup_lt_is_Some_2 armors k ltac:(lia)) as [a Ha].
    rewrite (drop_S _ _ _ Hc), (drop_S _ _ _ Ha).
    simpl. rewrite (char_at_Some _ _ _ Hc). simpl.
    destruct (is_one c); simpl.
    + rewrite (item_at_Some _ _ _ Ha). simpl. apply IH; lia.
    + apply IH; lia.
Qed.

Lemma foldl_push_back {A : Type} (out l : list A) :
  foldl (fun out a => out ++ [a]) out l = out ++ l.
Proof.
  revert out. induction l as [|a l IH]; intros out; simpl.
  - by rewrite app_nil_r.
  - rewrite IH, <- app_assoc. done.
Qed.

Lemma collect_select (armors : ArmorVector) (bs : list ascii) (n : Z) :
  length bs = Z.to_nat n → (Z.to_nat n ≤ length armors)%nat →
  collect armors bs n = Ok (select bs armors).
Proof.
  intros Hlen Hn. unfold collect.
  rewrite (for_each_selected (fun out a => out ++ [a])) by lia.
  by rewrite foldl_push_back.
Qed.

Lemma subset_totals_select (armors : ArmorVector) (bs : list ascii) (n : Z) :
  length bs = Z.to_nat n → (Z.to_nat n ≤ length armors)%nat →
  subset_totals armors bs n = Ok (sum_armor_vector (select bs armors)).
Proof.
  intros Hlen Hn. unfold subset_totals.
  rewrite (for_each_ext _
    (fun acc j =>
       c ← char_at bs j;
       if is_one c then armor ← item_at armors j; Ok (add_item acc armor)
       else Ok acc)) by (by intros [c d] j).
  by rewrite for_each_selected by lia.
Qed.

(** With no best set recorded, the output loop reads past the end of the
    empty string as soon as there are two items. *)
Lemma collect_nil (armors : ArmorVector) (n : Z) (out : ArmorVector) :
  collect armors [] n = Ok out → out = [].
Proof.
  unfold collect. destruct (Z.to_nat n) as [|[|m]]; simpl.
  - by intros [= <-].
  - by intros [= <-].
  - done.
Qed.

Lemma collect_nil_fails (armors : ArmorVector) (n : Z) :
  2 ≤ n → collect armors [] n = Fail out_of_range.
Proof.
  intros Hn. unfold collect.
  destruct (Z.to_nat n) as [|[|m]] eqn:E; [lia..|]. done.
Qed.

(** Whatever the string, the output loop takes items at ascending positions. *)
Lemma collect_ascending (armors : ArmorVector) (bs : list ascii) (n : Z)
    (out : ArmorVector) :
  collect armors bs n = Ok out →
  ∃ idxs, ascending idxs ∧ at_indices armors idxs out.
Proof.
  unfold collect.
  assert (∀ m k out0 idxs0,
    ascending idxs0 → Forall (fun j => j < k)%nat idxs0 →
    at_indices armors idxs0 out0 →
    for_each (fun output i =>
                c ← char_at bs i;
                if is_one c then armor ← item_at armors i; Ok (output ++ [armor])
                else Ok output) out0 (seq k m) = Ok out →
    ∃ idxs, ascending idxs ∧ at_indices armors idxs out) as H.
  { induction m as [|m IH]; intros k out0 idxs0 Hs Hb Hat; simpl.
    - intros [= <-]. eauto.
    - destruct (char_at bs k) as [c|]; simpl; [|done].
      destruct (is_one c); simpl.
      + destruct (armors !! k) as [a|] eqn:Ha.
        2:{ unfold item_at. rewrite Ha. done. }
        rewrite (item_at_Some _ _ _ Ha). simpl.
        apply (IH (S k) _ (idxs0 ++ [k])).
        * unfold ascending in *. apply StronglySorted_app_2; [|done|].
          -- intros x y Hx Hy%list_elem_of_singleton. subst.
             rewrite Forall_forall in Hb. by apply Hb.
          -- repeat constructor.
        * apply Forall_app. split; [|repeat constructor].
          eapply Forall_impl; [done|]. simpl. lia.
        * apply Forall2_app; [done|]. by repeat constructor.
      + apply (IH (S k) _ idxs0); [done| |done].
        eapply Forall_impl; [done|]. simpl. lia. }
  apply (H _ 0%nat [] []); by constructor.
Qed.

(** ** The loop over the subsets *)

Section exhaustive_loop.
Context (armors : ArmorVector) (total_cost : Q) (n : Z).
Hypothesis Hn : (Z.to_nat n ≤ length armors)%nat.

Lemma exhaustive_step_eq (st : Q * list ascii) (i : Z) :
  in_range n i →
  exhaustive_step armors total_cost n st i =
  Ok (if Qle_bool (total_cost_of (candidate armors n i)) total_cost
         && Qlt_bool st.1 (total_defense_of (candidate armors n i))
      then (total_defense_of (candidate armors n i), get_binary i n)
      else st).
Proof.
  intros Hi. unfold exhaustive_step.
  rewrite subset_totals_select by (by rewrite ?length_get_binary).
  simpl. fold (candidate armors n i).
  fold (total_cost_of (candidate armors n i)).
  fold (total_defense_of (candidate armors n i)).
  by destruct (_ && _).
Qed.

Lemma exhaustive_loop_invariant (k : nat) :
  Z.of_nat k ≤ 2 ^ Z.of_nat (Z.to_nat n) →
  ∃ st, for_each (exhaustive_step armors total_cost n) ((-1)%Q, [])
                 (seqZ 0 (Z.of_nat k)) = Ok st
        ∧ best_so_far armors total_cost n (Z.of_nat k) st.
Proof.
  induction k as [|k IH]; intros Hk.
  - exists ((-1)%Q, []). split; [done|].
    split; [intros i Hi; lia | split; [apply Qle_refl | by left]].
  - destruct IH as (st & Hrun & Hle & Hlow & Hbest); [lia|].
    rewrite seqZ_S, for_each_app, Hrun. simpl.
    rewrite exhaustive_step_eq by (unfold in_range; lia).
    rewrite Z.add_0_l.
    set (c := candidate armors n (Z.of_nat k)) in *.
    eexists. split; [done|].
    destruct (Qle_bool (total_cost_of c) total_cost) eqn:Ecost; simpl.
    + apply Qle_bool_iff in Ecost.
      destruct (Qlt_bool st.1 (total_defense_of c)) eqn:Edef.
      * apply Qlt_bool_iff in Edef.
        split; [|split].
        -- intros i Hi Hf. cbn [fst].
           destruct (decide (i = Z.of_nat k)) as [->|Hne]; [apply Qle_refl|].
           specialize (Hle i ltac:(lia) Hf). lra.
        -- cbn [fst]. lra.
        -- right. exists (Z.of_nat k).
           split; [lia|]. split; [done|]. split; [done|].
           intros i' Hi' Hf. cbn [fst].
           specialize (Hle i' ltac:(lia) Hf). lra.
      * apply Qlt_bool_false in Edef.
        split; [|split; [done|]].
        -- intros i Hi Hf.
           destruct (decide (i = Z.of_nat k)) as [->|Hne]; [done|].
           apply Hle; [lia | done].
        -- destruct Hbest as [->|(i & Hi & Hfi & -> & Hfirst)]; [by left|].
           right. exists i. split; [lia|]. done.
    + apply Qle_bool_false in Ecost.
      split; [|split; [done|]].
      * intros i Hi Hf.
        destruct (decide (i = Z.of_nat k)) as [->|Hne].
        -- unfold feasible in Hf. fold c in Hf. lra.
        -- apply Hle; [lia | done].
      * destruct Hbest as [->|(i & Hi & Hfi & -> & Hfirst)]; [by left|].
        right. exists i. split; [lia|]. done.
Qed.
End exhaustive_loop.

(** ** Subsets as vectors *)

Lemma select_none (bs : list ascii) (armors : ArmorVector) :
  Forall (fun c => is_one c = false) bs → select bs armors = [].
Proof.
  intros H. revert armors. induction H as [|c bs Hc _ IH]; intros armors.
  - by destruct armors.
  - destruct armors as [|a armors]; [done|]. simpl. by rewrite Hc.
Qed.

Lemma candidate_zero (armors : ArmorVector) (n : Z) : candidate armors n 0 = [].
Proof.
  unfold candidate. rewrite get_binary_spec.
  - apply select_none. apply Forall_reverse. unfold bits_of.
    apply Forall_fmap, Forall_forall. intros j _. simpl.
    by rewrite Z.bits_0.
  - split; [done | apply Z.pow_pos_nonneg; lia].
Qed.

Lemma select_sublist (bs : list ascii) (armors : ArmorVector) :
  select bs armors `sublist_of` armors.
Proof.
  revert armors. induction bs as [|c bs IH]; intros armors; simpl.
  - apply sublist_nil_l.
  - destruct armors as [|a armors]; [done|].
    destruct (is_one c); [apply sublist_skip | apply sublist_cons]; apply IH.
Qed.

(** Every sub-vector is selected by a bitmask. *)
Lemma sublist_select (s armors : ArmorVector) :
  s `sublist_of` armors →
  ∃ bs : list bool, length bs = length armors ∧ select (bit_char <$> bs) armors = s.
Proof.
  induction 1 as [|a s armors _ (bs & Hlen & <-)|a s armors _ (bs & Hlen & <-)].
  - by exists [].
  - exists (true :: bs). split; [simpl; by rewrite Hlen | done].
  - exists (false :: bs). split; [simpl; by rewrite Hlen | done].
Qed.

Lemma sublist_candidate (s armors : ArmorVector) :
  s `sublist_of` armors →
  ∃ i, 0 ≤ i < 2 ^ Z.of_nat (length armors)
       ∧ candidate armors (Z.of_nat (length armors)) i = s.
Proof.
  intros (bs & Hlen & Hsel)%sublist_select.
  exists (encode bs). pose proof (encode_range bs) as Hr.
  rewrite Hlen in Hr. split; [done|].
  unfold candidate. by rewrite <- Hlen, get_binary_encode.
Qed.

(** ** exhaustive_max_defense *)

Lemma int_wrap_le (z : Z) : 0 ≤ z → int_wrap z ≤ z.
Proof.
  intros H. unfold int_wrap.
  pose proof (Z.mod_le (z + 2 ^ 31) (2 ^ 32) ltac:(lia) ltac:(lia)). lia.
Qed.

Lemma exhaustive_loop_run (armors : ArmorVector) (total_cost : Q) :
  let n := int_wrap (Z.of_nat (length armors)) in
  ∃ st,
    for_each (exhaustive_step armors total_cost n) ((-1)%Q, []) (enumeration n)
      = Ok st
    ∧ best_so_far armors total_cost n (Z.of_nat (Z.to_nat (power_set_size n))) st.
Proof.
  intros n. unfold enumeration.
  assert (seqZ 0 (power_set_size n)
          = seqZ 0 (Z.of_nat (Z.to_nat (power_set_size n)))) as ->.
  { unfold seqZ. by rewrite Nat2Z.id. }
  apply exhaustive_loop_invariant.
  - pose proof (int_wrap_le (Z.of_nat (length armors)) ltac:(lia)). lia.
  - pose proof (power_set_size_le n).
    assert (0 < 2 ^ Z.of_nat (Z.to_nat n)) by (apply Z.pow_pos_nonneg; lia).
    lia.
Qed.

(** Whatever the input, a vector that the exhaustive search returns is
    empty or is a feasible candidate. *)
Lemma exhaustive_returns_candidate (armors : ArmorVector) (total_cost : Q)
    (out : ArmorVector) :
  exhaustive_max_defense armors total_cost = Ok out →
  out = [] ∨
  ∃ i, feasible total_cost (candidate armors (int_wrap (Z.of_nat (length armors))) i)
       ∧ out = candidate armors (int_wrap (Z.of_nat (length armors))) i.
Proof.
  unfold exhaustive_max_defense.
  set (n := int_wrap (Z.of_nat (length armors))).
  case_decide as Hn; [|done].
  destruct (exhaustive_loop_run armors total_cost) as (st & Hrun & _ & _ & Hbest).
  fold n in Hrun, Hbest. rewrite Hrun. simpl.
  destruct Hbest as [->|(i & Hi & Hf & -> & _)].
  - intros H%collect_nil. by left.
  - cbn [snd]. intros Hc. right. exists i. split; [done|].
    pose proof (power_set_size_le n).
    pose proof (int_wrap_le (Z.of_nat (length armors)) ltac:(lia)).
    rewrite collect_select in Hc.
    + by injection Hc as <-.
    + apply length_get_binary. lia.
    + fold n. lia.
Qed.

(** Up to 30 items and a budget that is not negative: the search returns
    the first candidate, in the order of the bitmasks, among the feasible
    candidates of greatest total defense. *)
Lemma exhaustive_spec (armors : ArmorVector) (total_cost : Q) :
  (length armors ≤ 30)%nat → (0 <= total_cost)%Q →
  let n := Z.of_nat (length armors) in
  ∃ i, 0 ≤ i < 2 ^ n
    ∧ exhaustive_max_defense armors total_cost = Ok (candidate armors n i)
    ∧ feasible total_cost (candidate armors n i)
    ∧ (∀ i', 0 ≤ i' < 2 ^ n → feasible total_cost (candidate armors n i') →
         (total_defense_of (candidate armors n i')
          <= total_defense_of (candidate armors n i))%Q)
    ∧ (∀ i', 0 ≤ i' < i → feasible total_cost (candidate armors n i') →
         (total_defense_of (candidate armors n i')
          < total_defense_of (candidate armors n i))%Q).
Proof.
  intros Hlen Hbudget n.
  destruct (exhaustive_loop_run armors total_cost) as (st & Hrun & Hle & _ & Hbest).
  assert (int_wrap (Z.of_nat (length armors)) = n) as Hwrap.
  { apply int_wrap_id. unfold INT_MIN, INT_MAX. lia. }
  rewrite Hwrap in Hrun, Hle, Hbest.
  rewrite power_set_size_small in Hle, Hbest by lia.
  assert (Z.of_nat (Z.to_nat (2 ^ Z.of_nat (Z.to_nat n))) = 2 ^ n) as Hpn.
  { unfold n. rewrite Nat2Z.id. apply Z2Nat.id. apply Z.pow_nonneg. lia. }
  rewrite Hpn in Hle, Hbest.
  assert (0 < 2 ^ n) as Hpos by (apply Z.pow_pos_nonneg; lia).
  assert (feasible total_cost (candidate armors n 0)) as Hf0.
  { rewrite candidate_zero. by unfold feasible. }
  pose proof (Hle 0 ltac:(lia) Hf0) as H0. rewrite candidate_zero in H0.
  destruct Hbest as [->|(i & Hi & Hf & -> & Hfirst)].
  { exfalso. revert H0. by unfold total_defense_of. }
  exists i. split; [done|]. split; [|split; [done|split; [done|done]]].
  unfold exhaustive_max_defense. rewrite Hwrap.
  rewrite decide_True by lia. rewrite Hrun. simpl.
  apply collect_select.
  - apply length_get_binary. unfold n. rewrite Nat2Z.id. fold n. lia.
  - unfold n. by rewrite Nat2Z.id.
Qed.

(** ** Totals *)

Lemma sum_armor_vector_snoc (l : ArmorVector) (a : ArmorItem) :
  sum_armor_vector (l ++ [a]) = add_item (sum_armor_vector l) a.
Proof. unfold sum_armor_vector. by rewrite foldl_snoc. Qed.

Lemma total_cost_of_snoc (l : ArmorVector) (a : ArmorItem) :
  total_cost_of (l ++ [a]) = (total_cost_of l + cost a)%Q.
Proof. unfold total_cost_of. by rewrite sum_armor_vector_snoc. Qed.

Lemma total_defense_of_snoc (l : ArmorVector) (a : ArmorItem) :
  total_defense_of (l ++ [a]) = (total_defense_of l + defense a)%Q.
Proof. unfold total_defense_of. by rewrite sum_armor_vector_snoc. Qed.

Lemma total_cost_of_nil : total_cost_of [] = 0%Q.
Proof. done. Qed.

Lemma total_defense_of_nil : total_defense_of [] = 0%Q.
Proof. done. Qed.

Lemma add_item_fst (t : Q * Q) (a : ArmorItem) :
  (add_item t a).1 = (t.1 + cost a)%Q.
Proof. done. Qed.

Lemma add_item_snd (t : Q * Q) (a : ArmorItem) :
  (add_item t a).2 = (t.2 + defense a)%Q.
Proof. done. Qed.

Lemma foldl_add_item (l : ArmorVector) (t : Q * Q) :
  ((foldl add_item t l).1 == t.1 + total_cost_of l)%Q ∧
  ((foldl add_item t l).2 == t.2 + total_defense_of l)%Q.
Proof.
  induction l as [|a l IH] using rev_ind.
  - simpl. rewrite total_cost_of_nil, total_defense_of_nil. split; lra.
  - rewrite foldl_snoc, total_cost_of_snoc, total_defense_of_snoc.
    rewrite add_item_fst, add_item_snd. destruct IH as [IHc IHd]. split; lra.
Qed.

Lemma total_cost_of_cons (a : ArmorItem) (l : ArmorVector) :
  (total_cost_of (a :: l) == cost a + total_cost_of l)%Q.
Proof.
  unfold total_cost_of at 1, sum_armor_vector. cbn [foldl].
  destruct (foldl_add_item l (add_item (0%Q, 0%Q) a)) as [H _].
  rewrite add_item_fst in H. cbn [fst] in H. lra.
Qed.

Lemma total_defense_of_cons (a : ArmorItem) (l : ArmorVector) :
  (total_defense_of (a :: l) == defense a + total_defense_of l)%Q.
Proof.
  unfold total_defense_of at 1, sum_armor_vector. cbn [foldl].
  destruct (foldl_add_item l (add_item (0%Q, 0%Q) a)) as [_ H].
  rewrite add_item_snd in H. cbn [snd] in H. lra.
Qed.

(** In exact arithmetic the totals do not depend on the order of the items. *)
Lemma totals_Permutation (l1 l2 : ArmorVector) :
  l1 ≡ₚ l2 →
  (total_cost_of l1 == total_cost_of l2)%Q ∧
  (total_defense_of l1 == total_defense_of l2)%Q.
Proof.
  induction 1 as [|a l1 l2 _ [IHc IHd]|a b l|l1 l2 l3 _ [IH1c IH1d] _ [IH2c IH2d]].
  - split; reflexivity.
  - pose proof (total_cost_of_cons a l1). pose proof (total_cost_of_cons a l2).
    pose proof (total_defense_of_cons a l1).
    pose proof (total_defense_of_cons a l2). split; lra.
  - pose proof (total_cost_of_cons a (b :: l)).
    pose proof (total_cost_of_cons b (a :: l)).
    pose proof (total_cost_of_cons a l). pose proof (total_cost_of_cons b l).
    pose proof (total_defense_of_cons a (b :: l)).
    pose proof (total_defense_of_cons b (a :: l)).
    pose proof (total_defense_of_cons a l).
    pose proof (total_defense_of_cons b l). split; lra.
  - split; lra.
Qed.

Lemma total_cost_of_positive (l : ArmorVector) :
  positive_costs l → l ≠ [] → (0 < total_cost_of l)%Q.
Proof.
  intros H. induction H as [|a l Ha Hl IH]; [done|]. intros _.
  pose proof (total_cost_of_cons a l) as Hc.
  destruct l as [|b l]; [rewrite total_cost_of_nil in Hc; lra|].
  specialize (IH ltac:(done)). lra.
Qed.

(** ** greedy_max_defense: the scan for the best ratio *)

Lemma scan_step_ratio (st : nat * Q * nat) (a : ArmorItem) :
  scan_step st a =
  let '(loop_pos, max_ratio, optimal_choice_pos) := st in
  if decide (loop_pos = 0%nat) then (S loop_pos, ratio a, loop_pos)
  else if Qlt_bool max_ratio (ratio a) then (S loop_pos, ratio a, loop_pos)
       else (S loop_pos, max_ratio, optimal_choice_pos).
Proof. by destruct st as [[? ?] ?]. Qed.

(** After the scan, [optimal_choice_pos] is the first position that holds
    an item of maximum ratio, and [max_ratio] is that ratio. *)
Lemma scan_spec (source : ArmorVector) :
  source ≠ [] →
  ∃ pos chosen,
    scan source = (length source, ratio chosen, pos)
    ∧ source !! pos = Some chosen
    ∧ (∀ j y, source !! j = Some y → (ratio y <= ratio chosen)%Q)
    ∧ (∀ j y, source !! j = Some y → (j < pos)%nat → (ratio y < ratio chosen)%Q).
Proof.
  induction source as [|x l IH] using rev_ind; [done|]. intros _.
  unfold scan. rewrite foldl_snoc. fold (scan l).
  destruct (decide (l = [])) as [->|Hl].
  - exists 0%nat, x. simpl. split; [done|]. split; [done|]. split.
    + intros [|j] y; simpl; [|done]. intros [= <-]. apply Qle_refl.
    + intros j y _ Hj. lia.
  - destruct (IH Hl) as (pos & c & -> & Hpos & Hmax & Hfirst).
    rewrite scan_step_ratio. rewrite decide_False by (by destruct l).
    rewrite length_app. simpl. rewrite Nat.add_1_r.
    destruct (Qlt_bool (ratio c) (ratio x)) eqn:E.
    + apply Qlt_bool_iff in E. exists (length l), x.
      split; [done|]. split.
      * rewrite lookup_app_r by lia. by rewrite Nat.sub_diag.
      * split.
        -- intros j y Hy. apply lookup_snoc_Some in Hy as [[Hj Hy]|[_ <-]].
           ++ specialize (Hmax j y Hy). lra.
           ++ apply Qle_refl.
        -- intros j y Hy Hj. rewrite lookup_app_l in Hy by done.
           specialize (Hmax j y Hy). lra.
    + apply Qlt_bool_false in E. exists pos, c.
      split; [done|]. split.
      * rewrite lookup_app_l; [done|]. by eapply lookup_lt_Some.
      * split.
        -- intros j y Hy. apply lookup_snoc_Some in Hy as [[Hj Hy]|[_ <-]].
           ++ by eapply Hmax.
           ++ done.
        -- intros j y Hy Hj. apply lookup_lt_Some in Hpos.
           rewrite lookup_app_l in Hy by lia. by eapply Hfirst.
Qed.

(** The scan makes the choice that the specification words. *)
Lemma scan_choice (source : ArmorVector) :
  source ≠ [] →
  ∃ chosen,
    source !! (scan source).2 = Some chosen
    ∧ list_find (has_max_ratio source) source = Some ((scan source).2, chosen).
Proof.
  intros (pos & c & -> & Hpos & Hmax & Hfirst)%scan_spec.
  exists c. cbn [snd]. split; [done|].
  apply list_find_Some. split; [done|]. split.
  - unfold has_max_ratio. apply Forall_forall. intros b Hb.
    apply list_elem_of_lookup in Hb as [j Hj]. by eapply Hmax.
  - intros j y Hy Hj Hy'. unfold has_max_ratio in Hy'.
    rewrite Forall_forall in Hy'.
    specialize (Hy' c ltac:(by eapply list_elem_of_lookup_2)).
    specialize (Hfirst j y Hy Hj). lra.
Qed.

(** One iteration takes the chosen item, when it fits, and erases it. *)
Lemma greedy_step_eq (total_cost : Q) (st : greedy_state) :
  g_source st ≠ [] →
  ∃ pos chosen,
    g_source st !! pos = Some chosen
    ∧ list_find (has_max_ratio (g_source st)) (g_source st) = Some (pos, chosen)
    ∧ greedy_step total_cost st =
      Ok (if decide (g_current_cost st + cost chosen <= total_cost)%Q
          then mkGreedy (delete pos (g_source st))
                        (g_current_cost st + cost chosen)%Q
                        (g_output st ++ [chosen])
          else mkGreedy (delete pos (g_source st))
                        (g_current_cost st) (g_output st)).
Proof.
  intros (chosen & Hpos & Hfind)%scan_choice.
  exists (scan (g_source st)).2, chosen. split; [done|]. split; [done|].
  unfold greedy_step. rewrite (item_at_Some _ _ _ Hpos). simpl.
  destruct (Qle_bool _ _) eqn:E.
  - apply Qle_bool_iff in E. by rewrite decide_True.
  - apply Qle_bool_false in E. rewrite decide_False; [done|].
    by apply Qlt_not_le.
Qed.

(** ** greedy_max_defense: the loop *)

Lemma greedy_loop_invariant (P : greedy_state → Prop) (total_cost : Q) :
  (∀ st st', g_source st ≠ [] → P st → greedy_step total_cost st = Ok st' → P st') →
  ∀ fuel st st', P st → greedy_loop fuel total_cost st = Ok st' → P st'.
Proof.
  intros Hstep. induction fuel as [|fuel IH]; intros st st' HP; simpl.
  - by intros [= <-].
  - case_decide as Hsrc; [|by intros [= <-]].
    destruct (greedy_step total_cost st) as [st1|] eqn:E; simpl; [|done].
    apply IH. by eapply Hstep.
Qed.

(** The loop runs without failure, reaches its exit condition and gives
    the output of the reference process. *)
Lemma greedy_loop_reference (fuel : nat) (total_cost : Q) (st : greedy_state) :
  ∃ st',
    greedy_loop fuel total_cost st = Ok st'
    ∧ g_output st' = reference_process fuel total_cost (g_source st)
                       (g_current_cost st) (g_output st)
    ∧ ((length (g_source st) ≤ fuel)%nat → g_source st' = []).
Proof.
  revert st. induction fuel as [|fuel IH]; intros st.
  - exists st. simpl. split; [done|]. split; [done|].
    intros H. destruct (g_source st); [done | simpl in H; lia].
  - simpl. case_decide as Hsrc.
    + destruct (greedy_step_eq total_cost st Hsrc) as (pos & c & Hpos & -> & ->).
      simpl. case_decide as Hfit.
      * destruct (IH (mkGreedy (delete pos (g_source st))
                       (g_current_cost st + cost c)%Q (g_output st ++ [c])))
          as (st' & -> & Hout & Hexit).
        exists st'. split; [done|]. split; [done|].
        intros Hlen. apply Hexit. simpl.
        rewrite length_delete by eauto. lia.
      * destruct (IH (mkGreedy (delete pos (g_source st))
                       (g_current_cost st) (g_output st)))
          as (st' & -> & Hout & Hexit).
        exists st'. split; [done|]. split; [done|].
        intros Hlen. apply Hexit. simpl.
        rewrite length_delete by eauto. lia.
    + exists st. assert (g_source st = []) as Hnil by (by destruct (g_source st)).
      rewrite Hnil. simpl. done.
Qed.

Lemma greedy_max_defense_reference (armors : ArmorVector) (total_cost : Q) :
  greedy_max_defense armors total_cost = Ok (greedy_reference armors total_cost).
Proof.
  unfold greedy_max_defense, greedy_reference.
  destruct (greedy_loop_reference (length armors) total_cost (mkGreedy armors 0%Q []))
    as (st & Hrun & Hout & _).
  rewrite Hrun. simpl. by rewrite Hout.
Qed.

(** The [while] loop of the greedy search ends with an empty [source]. *)
Lemma greedy_loop_exit (armors : ArmorVector) (total_cost : Q) :
  ∃ st, greedy_loop (length armors) total_cost (mkGreedy armors 0%Q []) = Ok st
        ∧ g_source st = [].
Proof.
  destruct (greedy_loop_reference (length armors) total_cost (mkGreedy armors 0%Q []))
    as (st & Hrun & _ & Hexit).
  exists st. split; [done|]. by apply Hexit.
Qed.

(** ** greedy_max_defense: what the loop maintains *)

(** Replaces a successful iteration [Hstep] on a non-empty [source] by its
    two outcomes, the chosen item [c] at position [pos] taken or dropped. *)
Ltac greedy_step_cases Hsrc Hstep pos c Hpos :=
  let Heq := fresh "Heq" in
  match type of Hstep with
  | greedy_step ?b ?st = _ =>
      destruct (greedy_step_eq b st Hsrc) as (pos & c & Hpos & _ & Heq)
  end;
  rewrite Heq in Hstep; injection Hstep as <-.

Lemma sublist_Forall {A : Type} (P : A → Prop) (l1 l2 : list A) :
  l1 `sublist_of` l2 → Forall P l2 → Forall P l1.
Proof.
  intros Hsub H. rewrite Forall_forall in *.
  intros x Hx. apply H. by eapply elem_of_sublist.
Qed.

Lemma greedy_run (P : greedy_state → Prop) (armors : ArmorVector) (total_cost : Q) :
  (∀ st st', g_source st ≠ [] → P st → greedy_step total_cost st = Ok st' → P st') →
  P (mkGreedy armors 0%Q []) →
  ∃ st, greedy_max_defense armors total_cost = Ok (g_output st) ∧ P st.
Proof.
  intros Hstep Hinit. unfold greedy_max_defense.
  destruct (greedy_loop_exit armors total_cost) as (st & Hrun & _).
  exists st. rewrite Hrun. split; [done|].
  by eapply greedy_loop_invariant.
Qed.

(** [current_cost] is the total cost of the output, and stays within a
    budget that is not negative. *)
Lemma greedy_feasible (armors : ArmorVector) (total_cost : Q) :
  (0 <= total_cost)%Q →
  ∃ out, greedy_max_defense armors total_cost = Ok out ∧ feasible total_cost out.
Proof.
  intros Hb.
  destruct (greedy_run
    (fun st => g_current_cost st = total_cost_of (g_output st)
               ∧ feasible total_cost (g_output st)) armors total_cost)
    as (st & Hrun & _ & Hf).
  - intros st st' Hsrc [Hcc Hf] Hstep.
    greedy_step_cases Hsrc Hstep pos c Hpos.
    case_decide as Hfit; cbn [g_current_cost g_output]; [|done].
    unfold feasible. rewrite total_cost_of_snoc, <- Hcc. done.
  - done.
  - eauto.
Qed.

(** The output is made of items of the input, each taken at most once. *)
Lemma greedy_submseteq (armors : ArmorVector) (total_cost : Q) :
  ∃ out, greedy_max_defense armors total_cost = Ok out ∧ out ⊆+ armors.
Proof.
  destruct (greedy_run
    (fun st => g_output st ++ g_source st ⊆+ armors) armors total_cost)
    as (st & Hrun & Hsub).
  - intros st st' Hsrc Hsub Hstep.
    greedy_step_cases Hsrc Hstep pos c Hpos.
    pose proof (delete_Permutation _ _ _ Hpos) as Hperm.
    case_decide as Hfit; cbn [g_source g_output].
    + rewrite <- app_assoc. simpl. by rewrite <- Hperm.
    + etrans; [|exact Hsub]. apply submseteq_skips_l.
      apply sublist_submseteq, sublist_delete.
  - done.
  - exists (g_output st). split; [done|].
    etrans; [|exact Hsub]. by apply submseteq_inserts_r.
Qed.

(** With positive costs and a budget that is zero or negative, no item is
    accepted. *)
Lemma greedy_nothing_fits (armors : ArmorVector) (total_cost : Q) :
  (total_cost <= 0)%Q → positive_costs armors →
  greedy_max_defense armors total_cost = Ok [].
Proof.
  intros Hb Hpos.
  destruct (greedy_run
    (fun st => positive_costs (g_source st)
               ∧ g_current_cost st = 0%Q ∧ g_output st = []) armors total_cost)
    as (st & Hrun & _ & _ & Hout).
  - intros st st' Hsrc (Hall & Hcc & Hout) Hstep.
    greedy_step_cases Hsrc Hstep pos c Hc.
    assert (0 < cost c)%Q as Hcpos.
    { rewrite Forall_forall in Hall. apply Hall.
      by eapply list_elem_of_lookup_2. }
    rewrite decide_False by (rewrite Hcc; lra).
    cbn [g_source g_current_cost g_output]. split; [|done].
    eapply sublist_Forall; [apply sublist_delete | done].
  - done.
  - by rewrite Hrun, Hout.
Qed.

(** ** exhaustive_max_defense: up to 30 items *)

(** The search returns a sub-vector of the input that fits the budget and
    whose total defense no feasible sub-vector exceeds. *)
Lemma exhaustive_optimal (armors : ArmorVector) (total_cost : Q) :
  (length armors ≤ 30)%nat → (0 <= total_cost)%Q →
  ∃ out, exhaustive_max_defense armors total_cost = Ok out
    ∧ out `sublist_of` armors
    ∧ feasible total_cost out
    ∧ ∀ s, s `sublist_of` armors → feasible total_cost s →
           (total_defense_of s <= total_defense_of out)%Q.
Proof.
  intros Hlen Hb.
  destruct (exhaustive_spec armors total_cost Hlen Hb) as (i & Hi & Hrun & Hf & Hmax & _).
  eexists. split; [exact Hrun|]. split; [apply select_sublist|]. split; [done|].
  intros s (i' & Hi' & <-)%sublist_candidate Hfs. by apply Hmax.
Qed.

(** In exact arithmetic the exhaustive search does at least as well as the
    greedy one. *)
Lemma exhaustive_ge_greedy (armors : ArmorVector) (total_cost : Q) :
  (length armors ≤ 30)%nat → (0 <= total_cost)%Q →
  ∃ out_e out_g,
    exhaustive_max_defense armors total_cost = Ok out_e
    ∧ greedy_max_defense armors total_cost = Ok out_g
    ∧ (total_defense_of out_g <= total_defense_of out_e)%Q.
Proof.
  intros Hlen Hb.
  destruct (exhaustive_optimal armors total_cost Hlen Hb) as (oe & He & _ & _ & Hmax).
  destruct (greedy_feasible armors total_cost Hb) as (og & Hg & Hfg).
  destruct (greedy_submseteq armors total_cost) as (og' & Hg' & Hsub).
  assert (og' = og) as -> by congruence.
  apply submseteq_sublist_r in Hsub as (s & Hperm & Hs).
  destruct (totals_Permutation _ _ Hperm) as [Hc Hd].
  exists oe, og. split; [done|]. split; [done|].
  rewrite Hd. apply Hmax; [done|].
  unfold feasible in *. by rewrite <- Hc.
Qed.

(** ** exhaustive_max_defense: where it breaks *)

(** From 31 items on, [pn] leaves the range of [int]: the loop over the
    subsets does not run, [best_set] stays empty and the output loop reads
    past its end. *)
Lemma exhaustive_overflow (armors : ArmorVector) (total_cost : Q) :
  (31 ≤ length armors < 64)%nat →
  exhaustive_max_defense armors total_cost = Fail out_of_range.
Proof.
  intros Hlen. unfold exhaustive_max_defense.
  rewrite int_wrap_id by (unfold INT_MIN, INT_MAX; lia).
  rewrite decide_True by lia.
  assert (enumeration (Z.of_nat (length armors)) = []) as ->.
  { unfold enumeration.
    assert (power_set_size (Z.of_nat (length armors)) ≤ 0) as Hpn.
    { destruct (decide (Z.of_nat (length armors) = 31)) as [E|E].
      - rewrite E, power_set_size_31. unfold INT_MIN. lia.
      - rewrite power_set_size_large by lia. lia. }
    unfold seqZ. replace (Z.to_nat _) with 0%nat by lia. done. }
  simpl. apply collect_nil_fails. lia.
Qed.

(** From 64 items on the assertion stops the search. *)
Lemma exhaustive_assertion (armors : ArmorVector) (total_cost : Q) :
  64 ≤ Z.of_nat (length armors) ≤ INT_MAX →
  exhaustive_max_defense armors total_cost = Fail assertion_failure.
Proof.
  intros Hlen. unfold exhaustive_max_defense.
  rewrite int_wrap_id by (unfold INT_MIN, INT_MAX in *; lia).
  by rewrite decide_False by lia.
Qed.

(** With a negative budget and positive costs no subset is feasible:
    [best_set] stays empty and, from two items on, the output loop reads
    past its end. *)
Lemma exhaustive_negative_budget (armors : ArmorVector) (total_cost : Q) :
  (2 ≤ length armors < 64)%nat → (total_cost < 0)%Q →
  positive_costs armors →
  exhaustive_max_defense armors total_cost = Fail out_of_range.
Proof.
  intros Hlen Hb Hpos. unfold exhaustive_max_defense.
  destruct (exhaustive_loop_run armors total_cost) as (st & Hrun & _ & _ & Hbest).
  rewrite int_wrap_id in * by (unfold INT_MIN, INT_MAX; lia).
  rewrite decide_True by lia. rewrite Hrun. simpl.
  destruct Hbest as [->|(i & _ & Hf & _)].
  - apply collect_nil_fails. lia.
  - exfalso. unfold feasible in Hf.
    set (c := candidate armors (Z.of_nat (length armors)) i) in *.
    assert (positive_costs c) as Hc.
    { eapply sublist_Forall; [apply select_sublist | done]. }
    destruct (decide (c = [])) as [E|E].
    + rewrite E, total_cost_of_nil in Hf. lra.
    + pose proof (total_cost_of_positive c Hc E). lra.
Qed.

(** ** Degenerate inputs *)

Lemma exhaustive_empty (total_cost : Q) : exhaustive_max_defense [] total_cost = Ok [].
Proof.
  unfold exhaustive_max_defense. simpl.
  change (enumeration (int_wrap 0)) with [0].
  simpl. unfold exhaustive_step. simpl.
  by destruct (Qle_bool 0 total_cost && Qlt_bool (-1) 0).
Qed.

Lemma greedy_empty (total_cost : Q) : greedy_max_defense [] total_cost = Ok [].
Proof. done. Qed.

(** A budget of zero, positive costs, up to 30 items: only the empty
    subset is feasible. *)
Lemma exhaustive_zero_budget (armors : ArmorVector) (total_cost : Q) :
  (length armors ≤ 30)%nat → (total_cost == 0)%Q →
  positive_costs armors →
  exhaustive_max_defense armors total_cost = Ok [].
Proof.
  intros Hlen Hb Hpos.
  destruct (exhaustive_optimal armors total_cost Hlen ltac:(lra))
    as (out & Hrun & Hsub & Hf & _).
  rewrite Hrun. f_equal.
  destruct (decide (out = [])) as [E|E]; [done|].
  assert (positive_costs out) as Hc
    by (by eapply sublist_Forall).
  pose proof (total_cost_of_positive out Hc E). unfold feasible in Hf. lra.
Qed.

(** ** The reference process stops on the empty working copy *)

(** More steps than there are items change nothing: the process ends when
    the working copy is empty. *)
Lemma reference_process_steps (steps : nat) (budget : Q) (working : ArmorVector)
    (current_cost : Q) (output : ArmorVector) :
  (length working ≤ steps)%nat →
  reference_process steps budget working current_cost output =
  reference_process (length working) budget working current_cost output.
Proof.
  revert working current_cost output.
  induction steps as [|steps IH]; intros working cc out Hlen.
  - by replace (length working) with 0%nat by lia.
  - simpl. destruct (list_find _ working) as [[pos c]|] eqn:Hfind.
    + pose proof Hfind as (Hpos & _)%list_find_Some.
      assert (length (delete pos working) = length working - 1)%nat as Hdel
        by (apply length_delete; eauto).
      apply lookup_lt_Some in Hpos.
      destruct (length working) as [|m] eqn:Hm; [lia|].
      simpl. rewrite Hfind.
      replace m with (length (delete pos working)) by lia.
      case_decide; apply IH; lia.
    + destruct (length working) as [|m]; [done|]. simpl. by rewrite Hfind.
Qed.

Lemma enumeration_small (n : Z) :
  0 ≤ n ≤ 30 → enumeration n = seqZ 0 (2 ^ n).
Proof.
  intros Hn. unfold enumeration. rewrite power_set_size_small by lia.
  by rewrite Z2Nat.id by lia.
Qed.

(** Up to 30 items, a tie between feasible subsets of greatest total
    defense goes to the lowest bitmask. *)
Lemma exhaustive_first_best (armors : ArmorVector) (total_cost : Q) :
  (length armors ≤ 30)%nat → (0 <= total_cost)%Q →
  let n := Z.of_nat (length armors) in
  ∃ i, 0 ≤ i < 2 ^ n
    ∧ exhaustive_max_defense armors total_cost = Ok (candidate armors n i)
    ∧ ∀ i', 0 ≤ i' < 2 ^ n → feasible total_cost (candidate armors n i') →
        (total_defense_of (candidate armors n i)
         <= total_defense_of (candidate armors n i'))%Q → i ≤ i'.
Proof.
  intros Hlen Hb n.
  destruct (exhaustive_spec armors total_cost Hlen Hb)
    as (i & Hi & Hrun & Hf & Hmax & Hfirst).
  exists i. split; [done|]. split; [done|].
  intros i' Hi' Hf' Hge.
  destruct (decide (i ≤ i')); [done|].
  specialize (Hfirst i' ltac:(lia) Hf'). fold n in Hfirst. lra.
Qed.

(* ================================================================= *)
(** * Further properties *)

(** ** The constructor and filter_armor_vector *)

Lemma new_ArmorItem_constructed (a : ArmorItem) :
  constructed a → new_ArmorItem (description a) (cost a) (defense a) = Ok a.
Proof.
  intros [Hd Hc]. unfold new_ArmorItem.
  rewrite decide_True by done.
  apply Qlt_bool_iff in Hc. rewrite Hc. by destruct a.
Qed.

Lemma new_ArmorItem_Ok (d : string) (c v : Q) (a : ArmorItem) :
  new_ArmorItem d c v = Ok a → a = mkArmorItem d c v ∧ constructed a.
Proof.
  unfold new_ArmorItem. case_decide as Hd; [|done].
  destruct (Qlt_bool 0 c) eqn:Hc; [|done].
  intros [= <-]. split; [done|]. split; [done|]. by apply Qlt_bool_iff.
Qed.

Lemma in_defense_range_iff (lo hi : Q) (a : ArmorItem) :
  in_defense_range lo hi a = true ↔
  (0 < defense a)%Q ∧ (lo <= defense a)%Q ∧ (defense a <= hi)%Q.
Proof.
  unfold in_defense_range. cbv zeta.
  rewrite !andb_true_iff, Qlt_bool_iff, !Qle_bool_iff. tauto.
Qed.

Lemma filter_step_eq (lo hi : Q) (total_size k : Z) (out : ArmorVector)
    (a : ArmorItem) :
  constructed a →
  filter_step lo hi total_size (k, out) a =
  Ok (if in_defense_range lo hi a && (k <? total_size)
      then (k + 1, out ++ [a]) else (k, out)).
Proof.
  intros Ha. unfold filter_step.
  destruct (_ && _); [|done].
  by rewrite new_ArmorItem_constructed.
Qed.

(** The loop of [filter_armor_vector] from a state where [output] holds
    [current_size] items: it appends the first matching items of what is
    left, as many as the size limit still allows. *)
Lemma filter_loop (lo hi : Q) (total_size : Z) (source output : ArmorVector) :
  Forall constructed source →
  for_each (filter_step lo hi total_size) (Z.of_nat (length output), output) source
  = Ok (Z.of_nat (length output
                  + length (take (Z.to_nat (total_size - Z.of_nat (length output)))
                              (filter (fun a => in_defense_range lo hi a = true) source))),
        output ++ take (Z.to_nat (total_size - Z.of_nat (length output)))
                       (filter (fun a => in_defense_range lo hi a = true) source)).
Proof.
  intros Hsrc. revert output.
  induction Hsrc as [|a source Ha _ IH]; intros output.
  - simpl. rewrite filter_nil, take_nil. simpl. by rewrite Nat.add_0_r, app_nil_r.
  - cbn [for_each]. rewrite filter_step_eq by done.
    destruct (in_defense_range lo hi a) eqn:Hin.
    + rewrite filter_cons_True by done.
      destruct (Z.of_nat (length output) <? total_size) eqn:Hlt; cbn [andb].
      * apply Z.ltb_lt in Hlt. simpl.
        replace (Z.of_nat (length output) + 1)
          with (Z.of_nat (length (output ++ [a])))
          by (rewrite length_app; simpl; lia).
        rewrite IH. rewrite length_app. simpl.
        replace (Z.to_nat (total_size - Z.of_nat (length output)))
          with (S (Z.to_nat (total_size - Z.of_nat (length output + 1)))) by lia.
        simpl. rewrite <- app_assoc. simpl.
        do 2 f_equal. lia.
      * apply Z.ltb_ge in Hlt. simpl. rewrite IH.
        replace (Z.to_nat (total_size - Z.of_nat (length output))) with 0%nat by lia.
        done.
    + rewrite filter_cons_False by (rewrite Hin; done). simpl. apply IH.
Qed.

Lemma filter_armor_vector_take (source : ArmorVector) (lo hi : Q) (total_size : Z) :
  Forall constructed source →
  filter_armor_vector source lo hi total_size
  = Ok (take (Z.to_nat total_size)
             (filter (fun a => in_defense_range lo hi a = true) source)).
Proof.
  intros Hsrc. unfold filter_armor_vector.
  pose proof (filter_loop lo hi total_size source [] Hsrc) as H.
  cbn [length app Nat.add] in H. change (Z.of_nat 0) with 0 in H.
  rewrite Z.sub_0_r in H. by rewrite H.
Qed.

(** ** Reading lines and fields *)

Lemma getline_from_length (delim : ascii) (s : string) :
  (String.length (getline_from delim s).2 ≤ String.length s)%nat.
Proof.
  induction s as [|c s IH]; simpl; [done|].
  destruct (Ascii.eqb c delim); simpl; [lia|].
  destruct (getline_from delim s) as [field rest]. simpl in *. lia.
Qed.

Lemma getline_Some (delim : ascii) (s : string) (field rest : string) :
  getline delim s = Some (field, rest) →
  s ≠ EmptyString ∧ getline_from delim s = (field, rest)
  ∧ (String.length rest < String.length s)%nat.
Proof.
  destruct s as [|c s]; simpl; [done|]. intros [= H].
  split; [done|]. split; [done|].
  destruct (Ascii.eqb c delim).
  - injection H as _ <-. lia.
  - pose proof (getline_from_length delim s) as Hlen.
    destruct (getline_from delim s) as [f r]. injection H as _ <-.
    simpl in Hlen. lia.
Qed.

Lemma read_fields_acc (fuel : nat) (ss : string) (fields : list string) :
  read_fields fuel ss fields = fields ++ read_fields fuel ss [].
Proof.
  revert ss fields. induction fuel as [|fuel IH]; intros ss fields; simpl.
  - by rewrite app_nil_r.
  - destruct (getline "^" ss) as [[field ss']|]; [|by rewrite app_nil_r].
    rewrite IH, (IH _ ([] ++ [field])), app_assoc. done.
Qed.

(** The loop over the fields ends by a failed [getline]: more steps than
    the line has characters change nothing. *)
Lemma read_fields_steps (fuel : nat) (ss : string) (fields : list string) :
  (String.length ss ≤ fuel)%nat →
  read_fields fuel ss fields = read_fields (String.length ss) ss fields.
Proof.
  revert ss fields. induction fuel as [fuel IH] using lt_wf_ind.
  intros ss fields Hlen. destruct fuel as [|fuel].
  - by replace (String.length ss) with 0%nat by lia.
  - destruct ss as [|c s]; [done|].
    cbn [String.length read_fields].
    destruct (getline "^" (String c s)) as [[field rest]|] eqn:Hget; [|done].
    apply getline_Some in Hget as (_ & _ & Hrest). simpl in *.
    rewrite (IH fuel) by lia. rewrite (IH (String.length s)) by lia. done.
Qed.

Lemma split_fields_nil : split_fields EmptyString = [].
Proof. done. Qed.

Lemma split_fields_cons (c : ascii) (s : string) :
  split_fields (String c s) =
  (getline_from "^" (String c s)).1 :: split_fields (getline_from "^" (String c s)).2.
Proof.
  unfold split_fields. cbn [String.length read_fields getline].
  pose proof (getline_from_length "^" (String c s)) as Hlen.
  destruct (getline_from "^" (String c s)) as [field rest] eqn:E.
  cbn [fst snd] in *.
  assert (String.length rest ≤ String.length s)%nat as Hle.
  { simpl in E. destruct (Ascii.eqb c "^").
    - injection E as _ <-. lia.
    - pose proof (getline_from_length "^" s) as H.
      destruct (getline_from "^" s) as [f r]. injection E as _ <-. simpl in H. lia. }
  rewrite read_fields_acc. simpl. f_equal. by apply read_fields_steps.
Qed.

Lemma read_lines_steps (fuel : nat) (f : string) :
  (String.length f ≤ fuel)%nat →
  read_lines fuel f = read_lines (String.length f) f.
Proof.
  revert f. induction fuel as [fuel IH] using lt_wf_ind.
  intros f Hlen. destruct fuel as [|fuel].
  - by replace (String.length f) with 0%nat by lia.
  - destruct f as [|c s]; [done|].
    cbn [String.length read_lines].
    destruct (getline "010" (String c s)) as [[line rest]|] eqn:Hget; [|done].
    apply getline_Some in Hget as (_ & _ & Hrest). simpl in *.
    rewrite (IH fuel) by lia. rewrite (IH (String.length s)) by lia. done.
Qed.

(** The field that [getline] reads from a text that starts with a field
    free of ['^'], followed by ['^']. *)
Lemma getline_from_no_caret (field rest : string) :
  no_caret field →
  getline_from "^" (field ++ String "^" rest)%string = (field, rest).
Proof.
  induction field as [|c field IH]; simpl; [done|].
  intros [Hc Hf]. rewrite (proj2 (Ascii.eqb_neq c "^") Hc).
  by rewrite IH.
Qed.

Lemma getline_from_no_caret_end (field : string) :
  no_caret field → getline_from "^" field = (field, EmptyString).
Proof.
  induction field as [|c field IH]; simpl; [done|].
  intros [Hc Hf]. rewrite (proj2 (Ascii.eqb_neq c "^") Hc).
  by rewrite IH.
Qed.

Lemma split_join_fields (fields : list string) :
  Forall no_caret fields → last fields ≠ Some EmptyString →
  split_fields (join_fields fields) = fields.
Proof.
  induction 1 as [|field fields Hf Hfs IH]; [done|]. intros Hlast.
  destruct fields as [|field' fields].
  - simpl. destruct field as [|c field]; [done|].
    rewrite split_fields_cons, getline_from_no_caret_end by done. done.
  - change (join_fields (field :: field' :: fields))
      with (field ++ String "^" (join_fields (field' :: fields)))%string.
    assert (∃ c s, (field ++ String "^" (join_fields (field' :: fields)))%string
                   = String c s) as (c & s & Hcs).
    { destruct field; simpl; eauto. }
    rewrite Hcs, split_fields_cons, <- Hcs.
    rewrite getline_from_no_caret by done. cbn [fst snd].
    f_equal. apply IH. by rewrite last_cons_cons in Hlast.
Qed.

(** ** load_armor_database *)

Section load.
Variable parse_double : string → Q.

Lemma item_of_line_Some (line : string) (a : ArmorItem) :
  item_of_line parse_double line = Some a →
  constructed a ∧ length (split_fields line) = 3%nat.
Proof.
  unfold item_of_line.
  destruct (split_fields line) as [|d [|c [|v [|]]]]; try done.
  case_decide as Hd; [|done].
  destruct (Qlt_bool 0 (parse_double c)) eqn:Hc; [|done].
  intros [= <-]. split; [|done]. split; [done|]. by apply Qlt_bool_iff.
Qed.

(** A line gives an item, or ends the load (wrong number of fields), or
    fails an assertion of the constructor. *)
Lemma load_line_eq (line : string) (result : ArmorVector) :
  load_line parse_double line result =
  match item_of_line parse_double line with
  | Some a => Ok (Some (result ++ [a]))
  | None =>
      if decide (length (split_fields line) ≠ 3%nat) then Ok None
      else Fail assertion_failure
  end.
Proof.
  unfold load_line, item_of_line, parse_dbl, new_ArmorItem.
  destruct (split_fields line) as [|d [|c [|v [|]]]]; try done.
  simpl. case_decide; [|done].
  by destruct (Qlt_bool 0 (parse_double c)).
Qed.

Lemma load_loop_lines (fuel : nat) (f : string) (line_number : nat)
    (result : ArmorVector) :
  (1 ≤ line_number)%nat →
  load_loop fuel parse_double f line_number result =
  load_lines parse_double (read_lines fuel f) result.
Proof.
  revert f line_number result.
  induction fuel as [|fuel IH]; intros f ln result Hln; [done|].
  simpl. destruct (getline "010" f) as [[line f']|]; [|done].
  rewrite decide_False by lia. simpl.
  destruct (load_line parse_double line result) as [[result'|]|]; simpl; try done.
  apply IH. lia.
Qed.

(** The first line is the header; the others are loaded in order. *)
Lemma load_armor_database_lines (f : string) :
  load_armor_database parse_double (Some f) =
  load_lines parse_double (tail (lines_of f)) [].
Proof.
  unfold load_armor_database, lines_of.
  destruct (String.length f) as [|fuel]; [done|].
  simpl. destruct (getline "010" f) as [[line f']|]; [|done].
  simpl. by apply load_loop_lines.
Qed.

Lemma load_lines_Some (lines : list string) (result v : ArmorVector) :
  load_lines parse_double lines result = Ok (Some v) ↔
  ∃ items, Forall2 (fun line a => item_of_line parse_double line = Some a) lines items
           ∧ v = result ++ items.
Proof.
  revert result. induction lines as [|line lines IH]; intros result; simpl.
  - split.
    + intros [= <-]. exists []. split; [constructor | by rewrite app_nil_r].
    + intros (items & H & ->). apply Forall2_nil_inv_l in H as ->.
      by rewrite app_nil_r.
  - rewrite load_line_eq.
    destruct (item_of_line parse_double line) as [a|] eqn:Ha; simpl.
    + rewrite IH. split.
      * intros (items & H & ->). exists (a :: items).
        split; [by constructor | by rewrite <- app_assoc].
      * intros (items & H & ->).
        apply Forall2_cons_inv_l in H as (a' & items' & Ha' & H & ->).
        exists items'. split; [done|].
        assert (a' = a) as -> by congruence. by rewrite <- app_assoc.
    + split.
      * by case_decide.
      * intros (items & H & _).
        apply Forall2_cons_inv_l in H as (a' & items' & Ha' & _). congruence.
Qed.

(** The first line that gives no item decides how the load ends. *)
Lemma load_lines_bad (good : list string) (bad : string) (rest : list string)
    (result : ArmorVector) :
  Forall (fun line => is_Some (item_of_line parse_double line)) good →
  item_of_line parse_double bad = None →
  load_lines parse_double (good ++ bad :: rest) result =
  if decide (length (split_fields bad) ≠ 3%nat) then Ok None
  else Fail assertion_failure.
Proof.
  intros Hgood Hbad. revert result.
  induction Hgood as [|line good [a Ha] _ IH]; intros result; simpl.
  - rewrite load_line_eq, Hbad. by case_decide.
  - rewrite load_line_eq, Ha. simpl. apply IH.
Qed.

End load.

(** ** get_binary: the numeral and its length *)

Lemma get_binary_chars (i n : Z) :
  in_range n i → bit_char <$> (is_one <$> get_binary i n) = get_binary i n.
Proof.
  intros Hi. rewrite get_binary_spec by done. unfold bits_of.
  rewrite <- !list_fmap_compose. apply list_eq. intros j.
  rewrite !list_lookup_fmap.
  destruct (reverse _ !! j) as [c|] eqn:E; [|done]. simpl.
  apply reverse_lookup_Some in E as [E _].
  rewrite list_lookup_fmap in E.
  destruct (seq 0 (Z.to_nat n) !! _) as [k|]; [|done].
  injection E as <-. by rewrite is_one_bit_char.
Qed.

Lemma get_binary_inj (n i1 i2 : Z) :
  in_range n i1 → in_range n i2 → get_binary i1 n = get_binary i2 n → i1 = i2.
Proof.
  intros H1 H2 Heq. apply (decoded_subset_inj n); [done..|].
  unfold decoded_subset, is_member. by rewrite Heq.
Qed.

Lemma encode_get_binary (i n : Z) :
  in_range n i → encode (is_one <$> get_binary i n) = i.
Proof.
  intros Hi.
  assert (length (is_one <$> get_binary i n) = Z.to_nat n) as Hlen
    by (by rewrite length_fmap, length_get_binary).
  pose proof (encode_range (is_one <$> get_binary i n)) as Hr.
  pose proof (get_binary_encode (is_one <$> get_binary i n)) as Hg.
  rewrite Hlen in Hr, Hg. rewrite get_binary_chars in Hg by done.
  apply (get_binary_inj (Z.of_nat (Z.to_nat n))).
  - unfold in_range. by rewrite Nat2Z.id.
  - unfold in_range in *. by rewrite Nat2Z.id.
  - rewrite Hg, !get_binary_spec; unfold in_range in *; rewrite ?Nat2Z.id; done.
Qed.

Lemma length_get_binary_nonneg (num len : Z) :
  0 ≤ num →
  Z.of_nat (length (get_binary num len)) = Z.max 0 (Z.max len (binary_digits num)).
Proof.
  intros Hnum. unfold get_binary.
  destruct (get_binary_digits_nonneg (digits_fuel num) num [])
    as (m & -> & Hlt & Hmin).
  { split; [lia | by apply digits_fuel_enough]. }
  assert (binary_digits num = Z.of_nat m) as ->.
  { unfold binary_digits. case_decide as Hz.
    - subst. destruct Hmin as [->|Hmin]; [done|].
      destruct m; [done|].
      assert (0 < 2 ^ (Z.of_nat (S m) - 1)) by (apply Z.pow_pos_nonneg; lia). lia.
    - destruct Hmin as [->|Hmin]; [simpl in Hlt; lia|].
      destruct m as [|m]; [simpl in Hlt; lia|].
      rewrite (Z.log2_unique num (Z.of_nat m)); [lia..|].
      split.
      + by replace (Z.of_nat m) with (Z.of_nat (S m) - 1) by lia.
      + by replace (Z.succ (Z.of_nat m)) with (Z.of_nat (S m)) by lia. }
  simpl.
  assert (∀ (g : list ascii → nat → list ascii) idxs s,
    (∀ s' k, length (g s' k) = length s') → length (foldl g s idxs) = length s) as Hfold.
  { clear. intros g idxs. induction idxs as [|k idxs IH]; intros s Hg; [done|].
    simpl. by rewrite IH, Hg. }
  rewrite Hfold.
  - rewrite length_app, length_bits_of, length_replicate. lia.
  - intros s' k. unfold swap_chars.
    destruct (s' !! k), (s' !! Z.to_nat (len - 1 - Z.of_nat k));
      by rewrite ?length_insert.
Qed.

(** ** sum_armor_vector over two vectors *)

Lemma totals_app (l1 l2 : ArmorVector) :
  (total_cost_of (l1 ++ l2) == total_cost_of l1 + total_cost_of l2)%Q ∧
  (total_defense_of (l1 ++ l2) == total_defense_of l1 + total_defense_of l2)%Q.
Proof.
  unfold total_cost_of at 1, total_defense_of at 1, sum_armor_vector.
  rewrite foldl_app. fold (sum_armor_vector l1).
  destruct (foldl_add_item l2 (sum_armor_vector l1)) as [Hc Hd].
  fold (total_cost_of l1) in Hc. fold (total_defense_of l1) in Hd. done.
Qed.

Lemma total_cost_of_nonneg (l : ArmorVector) :
  positive_costs l → (0 <= total_cost_of l)%Q.
Proof.
  intros H. destruct (decide (l = [])) as [->|Hne].
  - rewrite total_cost_of_nil. lra.
  - pose proof (total_cost_of_positive l H Hne). lra.
Qed.

(** ** greedy_max_defense: the order and the extent of the output *)

Lemma greedy_run_exit (P : greedy_state → Prop) (armors : ArmorVector)
    (total_cost : Q) :
  (∀ st st', g_source st ≠ [] → P st → greedy_step total_cost st = Ok st' → P st') →
  P (mkGreedy armors 0%Q []) →
  ∃ st, greedy_max_defense armors total_cost = Ok (g_output st)
        ∧ g_source st = [] ∧ P st.
Proof.
  intros Hstep Hinit. unfold greedy_max_defense.
  destruct (greedy_loop_exit armors total_cost) as (st & Hrun & Hexit).
  exists st. rewrite Hrun. split; [done|]. split; [done|].
  by eapply greedy_loop_invariant.
Qed.

Lemma greedy_by_ratio (armors : ArmorVector) (total_cost : Q) :
  ∃ out, greedy_max_defense armors total_cost = Ok out ∧ by_ratio out.
Proof.
  destruct (greedy_run
    (fun st => by_ratio (g_output st)
               ∧ ∀ a b, a ∈ g_output st → b ∈ g_source st → (ratio b <= ratio a)%Q)
    armors total_cost) as (st & Hrun & Hsorted & _).
  - intros st st' Hsrc [Hsorted Hbound] Hstep.
    destruct (greedy_step_eq total_cost st Hsrc) as (pos & c & Hpos & Hfind & Heq).
    rewrite Heq in Hstep. injection Hstep as <-.
    apply list_find_Some in Hfind as (_ & Hmax & _).
    unfold has_max_ratio in Hmax. rewrite Forall_forall in Hmax.
    assert (∀ b, b ∈ delete pos (g_source st) → b ∈ g_source st) as Hdel.
    { intros b Hb. eapply elem_of_sublist; [done | apply sublist_delete]. }
    assert (c ∈ g_source st) as Hc by (by eapply list_elem_of_lookup_2).
    case_decide as Hfit; cbn [g_source g_output].
    + split.
      * unfold by_ratio in *. apply StronglySorted_app_2; [|done|].
        -- intros a b Ha Hb%list_elem_of_singleton. subst. by apply Hbound.
        -- repeat constructor.
      * intros a b [Ha|Ha%list_elem_of_singleton]%elem_of_app Hb.
        -- apply Hbound; [done | by apply Hdel].
        -- subst. apply Hmax. by apply Hdel.
    + split; [done|]. intros a b Ha Hb. apply Hbound; [done | by apply Hdel].
  - split; [constructor | intros a b Ha; by apply elem_of_nil in Ha].
  - eauto.
Qed.

(** In exact arithmetic, a vector that fits as a whole is taken as a whole. *)
Lemma greedy_takes_all (armors : ArmorVector) (total_cost : Q) :
  positive_costs armors → feasible total_cost armors →
  ∃ out, greedy_max_defense armors total_cost = Ok out ∧ out ≡ₚ armors.
Proof.
  intros Hpos Hfit.
  destruct (greedy_run_exit
    (fun st => g_output st ++ g_source st ≡ₚ armors
               ∧ g_current_cost st = total_cost_of (g_output st)
               ∧ positive_costs (g_source st)) armors total_cost)
    as (st & Hrun & Hexit & Hperm & _).
  - intros st st' Hsrc (Hperm & Hcc & Hp) Hstep.
    greedy_step_cases Hsrc Hstep pos c Hpos'.
    pose proof (delete_Permutation _ _ _ Hpos') as Hdel.
    assert (positive_costs (delete pos (g_source st))) as Hp'
      by (eapply sublist_Forall; [apply sublist_delete | done]).
    assert (g_current_cost st + cost c <= total_cost)%Q as Hok.
    { destruct (totals_Permutation _ _ Hperm) as [Hall _].
      destruct (totals_app (g_output st) (g_source st)) as [Happ _].
      destruct (totals_Permutation _ _ Hdel) as [Hsrc' _].
      pose proof (total_cost_of_cons c (delete pos (g_source st))) as Hcons.
      pose proof (total_cost_of_nonneg _ Hp') as Hnn.
      unfold feasible in Hfit. rewrite Hcc. lra. }
    rewrite decide_True by done. cbn [g_source g_current_cost g_output].
    split; [|split; [|done]].
    + rewrite <- Hperm, <- app_assoc. simpl. by rewrite <- Hdel.
    + by rewrite total_cost_of_snoc, Hcc.
  - done.
  - exists (g_output st). split; [done|].
    by rewrite Hexit, app_nil_r in Hperm.
Qed.

Lemma greedy_empty_output (armors : ArmorVector) (total_cost : Q) :
  greedy_max_defense armors total_cost = Ok [] →
  Forall (fun a => total_cost < cost a)%Q armors.
Proof.
  intros Hres.
  destruct (greedy_run_exit
    (fun st => g_output st = [] →
               g_current_cost st = 0%Q
               ∧ ∀ a, a ∈ armors → a ∈ g_source st ∨ (total_cost < cost a)%Q)
    armors total_cost) as (st & Hrun & Hexit & HP).
  - intros st st' Hsrc HP Hstep.
    greedy_step_cases Hsrc Hstep pos c Hpos.
    pose proof (delete_Permutation _ _ _ Hpos) as Hdel.
    case_decide as Hfit; cbn [g_source g_current_cost g_output].
    + intros Hnil. by destruct (g_output st).
    + intros Hnil. destruct (HP Hnil) as [Hcc Hall]. split; [done|].
      intros a Ha. destruct (Hall a Ha) as [Hin|Hbig]; [|by right].
      rewrite Hdel in Hin. apply elem_of_cons in Hin as [->|Hin]; [|by left].
      right. rewrite Hcc in Hfit. apply Qnot_le_lt in Hfit. lra.
  - intros _. split; [done|]. intros a Ha. by left.
  - rewrite Hrun in Hres. injection Hres as Hnil.
    destruct (HP Hnil) as [_ Hall].
    apply Forall_forall. intros a Ha.
    destruct (Hall a Ha) as [Hin|Hbig]; [|done].
    rewrite Hexit in Hin. by apply elem_of_nil in Hin.
Qed.

(** ** exhaustive_max_defense when everything fits *)

(** Leaving out items of positive defense lowers the total defense. *)
Lemma sublist_total_defense (s l : ArmorVector) :
  s `sublist_of` l → Forall (fun a => 0 < defense a)%Q l →
  (total_defense_of s <= total_defense_of l)%Q ∧
  ((total_defense_of l <= total_defense_of s)%Q → s = l).
Proof.
  induction 1 as [|a s l Hsub IH|a s l Hsub IH]; intros Hpos.
  - split; [apply Qle_refl | done].
  - apply Forall_cons in Hpos as [Ha Hl]. destruct (IH Hl) as [Hle Heq].
    pose proof (total_defense_of_cons a s). pose proof (total_defense_of_cons a l).
    split; [lra|]. intros H'. f_equal. apply Heq. lra.
  - apply Forall_cons in Hpos as [Ha Hl]. destruct (IH Hl) as [Hle Heq].
    pose proof (total_defense_of_cons a l).
    split; [lra|]. intros H'. exfalso. lra.
Qed.

(** In exact arithmetic, a vector of positive defenses that fits as a whole
    is the only best subset. *)
Lemma exhaustive_takes_all (armors : ArmorVector) (total_cost : Q) :
  (length armors ≤ 30)%nat → Forall (fun a => 0 < defense a)%Q armors →
  feasible total_cost armors → (0 <= total_cost)%Q →
  exhaustive_max_defense armors total_cost = Ok armors.
Proof.
  intros Hlen Hpos Hfit Hb.
  destruct (exhaustive_optimal armors total_cost Hlen Hb)
    as (out & Hrun & Hsub & _ & Hmax).
  rewrite Hrun. f_equal.
  apply (sublist_total_defense out armors Hsub Hpos).
  by apply Hmax.
Qed.

(** ** filter_armor_vector: the shape of the result *)

Lemma filter_all {A : Type} (P : A → Prop) `{!∀ x, Decision (P x)} (l : list A) :
  Forall P l → filter P l = l.
Proof.
  induction 1 as [|x l Hx _ IH]; [done|].
  by rewrite filter_cons_True, IH.
Qed.

Lemma filter_armor_vector_props (source : ArmorVector) (lo hi : Q) (total_size : Z) :
  Forall constructed source →
  ∃ out, filter_armor_vector source lo hi total_size = Ok out
    ∧ out `sublist_of` source
    ∧ Z.of_nat (length out) ≤ Z.max 0 total_size
    ∧ Forall (fun a => in_defense_range lo hi a = true) out.
Proof.
  intros Hsrc. eexists. split; [by apply filter_armor_vector_take|].
  split; [|split].
  - etrans; [apply sublist_take | apply sublist_filter].
  - rewrite length_take. lia.
  - apply Forall_forall. intros a Ha.
    apply elem_of_take in Ha as (j & Ha & _).
    apply list_elem_of_lookup_2 in Ha.
    by apply list_elem_of_filter in Ha as [Ha _].
Qed.

(* ================================================================= *)
(** * The claims *)

(** C7, as stated (item [j] is decoded from bit [j], bit 0 being item 0),
    does not hold: for [n = 2] and [i = 1] bit 0 of [i] is set, but the
    bitmask string is ["01"] and item 0 is not in the decoded subset. *)
Lemma decoded_subset_lsb_first_fails :
  ¬ (0%nat ∈ decoded_subset 2 1 ↔ Z.testbit 1 (Z.of_nat 0) = true).
Proof.
  intros [_ H]. specialize (H eq_refl).
  apply elem_of_decoded_subset in H; [|done].
  destruct H as [_ H]. vm_compute in H. done.
Qed.

(** C7 (amended): for [0 <= n < 64], [i] in [[0, 2^n)] and an item index
    [j < n], the subset decoded from [i] contains item [j] if and only if
    bit [n - 1 - j] of [i] is set: the bitmask string is the binary numeral
    of [i] with the highest bit first, so that the least significant bit
    stands for the last item, index [n - 1]. *)
Theorem decoded_subset_msb_first (n i : Z) (j : nat) :
  0 ≤ n < 64 → 0 ≤ i < 2 ^ n → Z.of_nat j < n →
  j ∈ decoded_subset n i ↔ Z.testbit i (n - 1 - Z.of_nat j) = true.
Proof.
  intros Hn Hi Hj. rewrite elem_of_decoded_subset by (rewrite Z2Nat.id; lia).
  split; [by intros [_ ?] | intros ?; split; [lia | done]].
Qed.

Lemma decoded_subset_msb_first_witness :
  0 ≤ 3 < 64 ∧ 0 ≤ 1 < 2 ^ 3 ∧ Z.of_nat 2 < 3 ∧
  (2%nat ∈ decoded_subset 3 1 ↔ Z.testbit 1 (3 - 1 - Z.of_nat 2) = true).
Proof.
  split; [lia|]. split; [lia|]. split; [lia|].
  apply (decoded_subset_msb_first 3 1 2); lia.
Defined.




(** C6: the loop is meant to visit the [2^n] bitmasks for every [n] below
    64, and up to [n = 30] it does ([enumeration_small]).  For [n = 31]
    the 32-bit [pn] wraps to [INT_MIN] and the loop body does not run at
    all. *)
Lemma enumeration_31_items_empty :
  power_set_size 31 = -2147483648 ∧ enumeration 31 = [] ∧
  enumeration 30 = seqZ 0 (2 ^ 30).
Proof.
  split; [by vm_compute|]. split; [by vm_compute|].
  apply enumeration_small. lia.
Qed.

(** C1: with 31 items of cost 1 and a budget of 5 there are feasible
    subsets, yet the search returns none: no bitmask is visited and the
    output loop reads past the end of the empty [best_set]. *)
Lemma exhaustive_31_items_no_result :
  feasible 5 (take 5 (replicate 31 (item 1 1))) ∧
  exhaustive_max_defense (replicate 31 (item 1 1)) 5 = Fail out_of_range.
Proof. split; by vm_compute. Qed.

(** C3: on 31 items of cost 1 and defense 1 with a budget of 5 the greedy
    search returns five items, of total defense 5, and the exhaustive
    search returns nothing. *)
Lemma exhaustive_vs_greedy_31_items :
  greedy_max_defense (replicate 31 (item 1 1)) 5 = Ok (replicate 5 (item 1 1)) ∧
  exhaustive_max_defense (replicate 31 (item 1 1)) 5 = Fail out_of_range.
Proof. split; by vm_compute. Qed.

(** C8: 31 items of cost 1 and defense 1 with a budget of 1.  The
    bitmasks 1 and 2 select one item each, two feasible subsets of the
    greatest total defense; the search returns neither. *)
Lemma exhaustive_tie_31_items :
  candidate (replicate 31 (item 1 1)) 31 1 = [item 1 1] ∧
  candidate (replicate 31 (item 1 1)) 31 2 = [item 1 1] ∧
  exhaustive_max_defense (replicate 31 (item 1 1)) 1 = Fail out_of_range.
Proof. repeat split; by vm_compute. Qed.

(** C5: two items of cost 1 and a budget of -1.  The greedy search returns
    the empty vector; the exhaustive search records no best set and reads
    past the end of the empty string.  The same happens for 31 items and a
    budget of 0. *)
Lemma exhaustive_degenerate_fails :
  greedy_max_defense [item 1 1; item 1 1] (-1) = Ok [] ∧
  exhaustive_max_defense [item 1 1; item 1 1] (-1) = Fail out_of_range ∧
  exhaustive_max_defense (replicate 31 (item 1 1)) 0 = Fail out_of_range.
Proof. repeat split; by vm_compute. Qed.

(** C2, as stated for every budget, does not hold: with one item of cost 1
    and a budget of -1 both searches return the empty vector, whose total
    cost 0 is above the budget. *)
Lemma feasibility_fails_negative_budget :
  greedy_max_defense [item 1 1] (-1) = Ok [] ∧
  exhaustive_max_defense [item 1 1] (-1) = Ok [] ∧
  ¬ (total_cost_of [] <= -1)%Q.
Proof. repeat split; by vm_compute. Qed.

(** C2 (amended): for every item sequence and every budget that is not
    negative, the greedy search returns a vector whose total cost is at
    most the budget, and every vector that the exhaustive search returns
    has a total cost of at most the budget; it does return one whenever
    there are at most 30 items. *)
Theorem optimizers_feasible (armors : ArmorVector) (budget : Q) :
  (0 <= budget)%Q →
  (∃ out, greedy_max_defense armors budget = Ok out
          ∧ (total_cost_of out <= budget)%Q) ∧
  (∀ out, exhaustive_max_defense armors budget = Ok out →
          (total_cost_of out <= budget)%Q) ∧
  ((length armors ≤ 30)%nat →
   ∃ out, exhaustive_max_defense armors budget = Ok out).
Proof.
  intros Hb. split; [|split].
  - by apply greedy_feasible.
  - intros out [->|(i & Hf & ->)]%exhaustive_returns_candidate; done.
  - intros Hlen.
    destruct (exhaustive_optimal armors budget Hlen Hb) as (out & Hrun & _).
    eauto.
Qed.

Lemma optimizers_feasible_witness :
  (0 <= 50)%Q ∧
  (∃ out, greedy_max_defense scenario 50 = Ok out ∧ (total_cost_of out <= 50)%Q).
Proof.
  split; [done|]. apply (optimizers_feasible scenario 50). done.
Defined.

(** C4: for every item sequence with strictly positive costs and every
    budget, the greedy search returns the output of the reference process
    of the specification: choose the remaining item of maximum ratio, the
    first position winning on ties, accept it when the running cost plus
    its cost is at most the budget, remove it in both cases, and stop when
    the working copy is empty (any number of steps from the number of
    items on gives that output). *)
Theorem greedy_refines_reference (armors : ArmorVector) (budget : Q) (steps : nat) :
  positive_costs armors → (length armors ≤ steps)%nat →
  greedy_max_defense armors budget = Ok (reference_process steps budget armors 0 []).
Proof.
  intros _ Hsteps. rewrite reference_process_steps by done.
  apply greedy_max_defense_reference.
Qed.

Lemma greedy_refines_reference_witness :
  positive_costs scenario ∧ (length scenario ≤ 3)%nat ∧
  greedy_max_defense scenario 50 = Ok (reference_process 3 50 scenario 0 []) ∧
  reference_process 3 50 scenario 0 [] = [item 10 60; item 20 100].
Proof.
  assert (positive_costs scenario) as H
    by (repeat constructor).
  split; [exact H|]. split; [simpl; lia|]. split.
  - apply (greedy_refines_reference scenario 50 3 H). simpl. lia.
  - by vm_compute.
Defined.

(** C10: every vector that the exhaustive search returns lists items of
    the input at strictly ascending positions, so in the order of the input
    and none of them twice; with fewer than 64 items and a budget that is
    not negative this holds in particular, and up to 30 items a vector is
    returned. *)
Theorem exhaustive_output_ascending (armors : ArmorVector) (budget : Q) :
  (length armors < 64)%nat → (0 <= budget)%Q →
  (∀ out, exhaustive_max_defense armors budget = Ok out →
          ∃ idxs, ascending idxs ∧ at_indices armors idxs out) ∧
  ((length armors ≤ 30)%nat →
   ∃ out, exhaustive_max_defense armors budget = Ok out).
Proof.
  intros _ Hb. split.
  - unfold exhaustive_max_defense. intros out. case_decide; [|done].
    destruct (for_each _ _ _) as [best|]; simpl; [|done].
    apply collect_ascending.
  - intros Hlen.
    destruct (exhaustive_optimal armors budget Hlen Hb) as (out & Hrun & _).
    eauto.
Qed.

Lemma exhaustive_output_ascending_witness :
  (length scenario < 64)%nat ∧ (0 <= 50)%Q ∧
  exhaustive_max_defense scenario 50 = Ok [item 20 100; item 30 120] ∧
  ∃ idxs, ascending idxs ∧ at_indices scenario idxs [item 20 100; item 30 120].
Proof.
  assert (length scenario < 64)%nat as Hlen by (simpl; lia).
  assert (0 <= 50)%Q as Hb by done.
  split; [exact Hlen|]. split; [exact Hb|]. split; [by vm_compute|].
  apply (proj1 (exhaustive_output_ascending scenario 50 Hlen Hb)).
  by vm_compute.
Defined.

(* ================================================================= *)
(** * More of the code: the loader, the filter and the two searches *)

(** Closes the side conditions of the examples: items of the test data are
    constructed, their costs and defenses are positive. *)
Ltac by_evaluation := repeat first [done | lia | constructor].

(** Closes [exact_sums] on test data written with whole numbers. *)
Ltac exact_sums_by_evaluation :=
  split;
  [ repeat first
      [ exact I
      | apply Forall_nil
      | apply Forall_cons; split;
        [ split; (split; [done | eexists; reflexivity]) | ] ]
  | split; by vm_compute ].

(** X1: [filter_armor_vector] on constructed items returns, in the order
    of the source, the first [total_size] items whose defense is positive
    and lies between [min_defense] and [max_defense], both included. *)
Theorem filter_first_matches (source : ArmorVector) (min_defense max_defense : Q)
    (total_size : Z) :
  Forall constructed source →
  filter_armor_vector source min_defense max_defense total_size
  = Ok (take (Z.to_nat total_size)
             (filter (fun a => in_defense_range min_defense max_defense a = true)
                     source)).
Proof. apply filter_armor_vector_take. Qed.

Lemma filter_first_matches_witness :
  Forall constructed scenario ∧
  filter_armor_vector scenario 100 2500 1 = Ok [item 20 100].
Proof.
  assert (Forall constructed scenario) as H by by_evaluation.
  split; [exact H|].
  rewrite (filter_first_matches scenario 100 2500 1 H). by vm_compute.
Defined.

(** X2: the vector that [filter_armor_vector] returns is a sub-vector of
    the source with at most [total_size] items (none when [total_size] is
    not positive), each of positive defense within the two bounds. *)
Theorem filter_output_bounds (source : ArmorVector) (min_defense max_defense : Q)
    (total_size : Z) :
  Forall constructed source →
  ∃ out, filter_armor_vector source min_defense max_defense total_size = Ok out
    ∧ out `sublist_of` source
    ∧ Z.of_nat (length out) ≤ Z.max 0 total_size
    ∧ Forall (fun a => (0 < defense a)%Q ∧ (min_defense <= defense a)%Q
                       ∧ (defense a <= max_defense)%Q) out.
Proof.
  intros Hsrc.
  destruct (filter_armor_vector_props source min_defense max_defense total_size Hsrc)
    as (out & Hrun & Hsub & Hlen & Hall).
  exists out. split; [done|]. split; [done|]. split; [done|].
  eapply Forall_impl; [exact Hall|]. intros a Ha. by apply in_defense_range_iff.
Qed.

Lemma filter_output_bounds_witness :
  Forall constructed scenario ∧
  ∃ out, filter_armor_vector scenario 1 2500 2 = Ok out
    ∧ out `sublist_of` scenario
    ∧ Z.of_nat (length out) ≤ Z.max 0 2
    ∧ Forall (fun a => (0 < defense a)%Q ∧ (1 <= defense a)%Q
                       ∧ (defense a <= 2500)%Q) out.
Proof.
  assert (Forall constructed scenario) as H by by_evaluation.
  split; [exact H|]. exact (filter_output_bounds scenario 1 2500 2 H).
Defined.

(** X3: filtering is idempotent: the vector that [filter_armor_vector]
    returns is left unchanged by a second pass with the same bounds and the
    same size limit. *)
Theorem filter_idempotent (source : ArmorVector) (min_defense max_defense : Q)
    (total_size : Z) :
  Forall constructed source →
  ∃ out, filter_armor_vector source min_defense max_defense total_size = Ok out
    ∧ filter_armor_vector out min_defense max_defense total_size = Ok out.
Proof.
  intros Hsrc.
  destruct (filter_armor_vector_props source min_defense max_defense total_size Hsrc)
    as (out & Hrun & Hsub & Hlen & Hall).
  exists out. split; [done|].
  rewrite filter_armor_vector_take by (by eapply sublist_Forall).
  f_equal. rewrite filter_all by done. apply take_ge. lia.
Qed.

Lemma filter_idempotent_witness :
  Forall constructed scenario ∧
  filter_armor_vector scenario 1 100 5 = Ok [item 10 60; item 20 100] ∧
  filter_armor_vector [item 10 60; item 20 100] 1 100 5
  = Ok [item 10 60; item 20 100].
Proof.
  assert (Forall constructed scenario) as H by by_evaluation.
  split; [exact H|].
  destruct (filter_idempotent scenario 1 100 5 H) as (out & H1 & H2).
  assert (out = [item 10 60; item 20 100]) as ->.
  { vm_compute in H1. by injection H1 as <-. }
  by split.
Defined.

(** X4: the filter and the exhaustive search compose as in [main]: after
    filtering constructed items down to at most 30, the search with a
    budget that is not negative returns a sub-vector of the filtered vector
    that fits the budget and whose total defense no feasible sub-vector of
    the filtered vector exceeds. *)
Theorem filter_then_exhaustive (source : ArmorVector) (min_defense max_defense : Q)
    (total_size : Z) (budget : Q) :
  Forall constructed source → total_size ≤ 30 → (0 <= budget)%Q →
  ∃ filtered out,
    filter_armor_vector source min_defense max_defense total_size = Ok filtered
    ∧ exhaustive_max_defense filtered budget = Ok out
    ∧ out `sublist_of` filtered
    ∧ feasible budget out
    ∧ ∀ s, s `sublist_of` filtered → feasible budget s →
           (total_defense_of s <= total_defense_of out)%Q.
Proof.
  intros Hsrc Hsize Hb.
  destruct (filter_armor_vector_props source min_defense max_defense total_size Hsrc)
    as (filtered & Hf & _ & Hlen & _).
  destruct (exhaustive_optimal filtered budget ltac:(lia) Hb) as (out & Hrun & H).
  by exists filtered, out.
Qed.

Lemma filter_then_exhaustive_witness :
  Forall constructed scenario ∧ 20 ≤ 30 ∧ (0 <= 50)%Q ∧
  ∃ filtered out,
    filter_armor_vector scenario 1 2500 20 = Ok filtered
    ∧ exhaustive_max_defense filtered 50 = Ok out
    ∧ out `sublist_of` filtered
    ∧ feasible 50 out
    ∧ ∀ s, s `sublist_of` filtered → feasible 50 s →
           (total_defense_of s <= total_defense_of out)%Q.
Proof.
  assert (Forall constructed scenario) as H by by_evaluation.
  split; [exact H|]. split; [lia|]. split; [done|].
  apply (filter_then_exhaustive scenario 1 2500 20 50 H); [lia | done].
Defined.

(** X5: fields that hold no ['^'] and are written with ['^'] between them
    are read back unchanged by the field loop of [load_armor_database],
    provided the last field is not empty (an empty last field is lost: the
    call of [getline] that would read it fails). *)
Theorem split_join_round_trip (fields : list string) :
  Forall no_caret fields → last fields ≠ Some EmptyString →
  split_fields (join_fields fields) = fields.
Proof. apply split_join_fields. Qed.

Lemma split_join_round_trip_witness :
  Forall no_caret ["helmet"; ""; "60"]%string ∧
  last ["helmet"; ""; "60"]%string ≠ Some EmptyString ∧
  split_fields "helmet^^60" = ["helmet"; ""; "60"]%string ∧
  split_fields "helmet^60^" = ["helmet"; "60"]%string.
Proof.
  assert (Forall no_caret ["helmet"; ""; "60"]%string) as H1
    by (repeat constructor; by vm_compute).
  assert (last ["helmet"; ""; "60"]%string ≠ Some EmptyString) as H2 by done.
  split; [exact H1|]. split; [exact H2|]. split; [|by vm_compute].
  exact (split_join_round_trip ["helmet"; ""; "60"]%string H1 H2).
Defined.

(** X6: when the number fields of the lines of three fields are not blank,
    [load_armor_database] returns a vector exactly when every line
    after the first (the header) has three fields, the first one not empty
    and the second one read as a positive number; the vector then holds, in
    the order of the lines, one item for each line, with the first field as
    its description and the numbers read from the other two as its cost
    and defense. *)
Theorem load_returns_items (parse_double : string → Q) (f : string)
    (v : ArmorVector) :
  Forall numbers_present (tail (lines_of f)) →
  load_armor_database parse_double (Some f) = Ok (Some v) ↔
  Forall2 (fun line a => item_of_line parse_double line = Some a)
          (tail (lines_of f)) v.
Proof.
  intros _. rewrite load_armor_database_lines, load_lines_Some. split.
  - by intros (items & H & ->).
  - intros H. by exists v.
Qed.

Lemma load_returns_items_witness :
  Forall numbers_present (tail (lines_of sample_file)) ∧
  load_armor_database read_number (Some sample_file)
  = Ok (Some [mkArmorItem "helmet" 10 60; mkArmorItem "shield" 20 100]).
Proof.
  assert (Forall numbers_present (tail (lines_of sample_file))) as H.
  { change (tail (lines_of sample_file))
      with ["helmet^10^60"; "shield^20^100"]%string.
    repeat (constructor; [by vm_compute|]). constructor. }
  split; [exact H|].
  apply (proj2 (load_returns_items read_number sample_file _ H)).
  change (tail (lines_of sample_file))
    with ["helmet^10^60"; "shield^20^100"]%string.
  repeat constructor.
Defined.

(** X7: a line after the header whose number of fields is not three makes
    [load_armor_database] return the null pointer, whatever follows it,
    when the lines before it were loaded: the line is not skipped. *)
Theorem load_wrong_field_count (parse_double : string → Q) (f : string)
    (header bad : string) (good rest : list string) :
  lines_of f = header :: good ++ bad :: rest →
  Forall (fun line => is_Some (item_of_line parse_double line)) good →
  length (split_fields bad) ≠ 3%nat →
  load_armor_database parse_double (Some f) = Ok None.
Proof.
  intros Hlines Hgood Hbad.
  rewrite load_armor_database_lines, Hlines. cbn [tail].
  rewrite load_lines_bad; [by rewrite decide_True|done|].
  destruct (item_of_line parse_double bad) as [a|] eqn:Ha; [|done].
  by apply item_of_line_Some in Ha as [_ ?].
Qed.

Lemma load_wrong_field_count_witness :
  lines_of ("header" ++ String "010" ("helmet^10^60" ++ String "010" "shield^20"))
    = "header"%string :: ["helmet^10^60"%string] ++ "shield^20"%string :: [] ∧
  load_armor_database read_number
    (Some ("header" ++ String "010" ("helmet^10^60" ++ String "010" "shield^20"))%string)
  = Ok None.
Proof.
  assert (lines_of ("header" ++ String "010" ("helmet^10^60" ++ String "010" "shield^20"))
    = "header"%string :: ["helmet^10^60"%string] ++ "shield^20"%string :: []) as H
    by (by vm_compute).
  split; [exact H|].
  apply (load_wrong_field_count read_number _ _ _ _ _ H).
  - apply Forall_singleton. exists (mkArmorItem "helmet" 10 60). by vm_compute.
  - by vm_compute.
Defined.

(** X8: a line after the header with three fields, but an empty first
    field or a second field that is not read as a positive number, stops
    the run by an assertion of the constructor, when the lines before it
    were loaded and no number field up to that line is blank. *)
Theorem load_invalid_item (parse_double : string → Q) (f : string)
    (header bad : string) (good rest : list string) :
  lines_of f = header :: good ++ bad :: rest →
  Forall numbers_present (good ++ [bad]) →
  Forall (fun line => is_Some (item_of_line parse_double line)) good →
  length (split_fields bad) = 3%nat →
  item_of_line parse_double bad = None →
  load_armor_database parse_double (Some f) = Fail assertion_failure.
Proof.
  intros Hlines _ Hgood Hlen Hbad.
  rewrite load_armor_database_lines, Hlines. cbn [tail].
  rewrite load_lines_bad by done. by rewrite decide_False by (by intros ?).
Qed.

Lemma load_invalid_item_witness :
  lines_of ("header" ++ String "010" "helmet^0^60")
    = "header"%string :: [] ++ "helmet^0^60"%string :: [] ∧
  Forall numbers_present ([] ++ ["helmet^0^60"%string]) ∧
  load_armor_database read_number (Some ("header" ++ String "010" "helmet^0^60")%string)
  = Fail assertion_failure.
Proof.
  assert (lines_of ("header" ++ String "010" "helmet^0^60")
    = "header"%string :: [] ++ "helmet^0^60"%string :: []) as H by (by vm_compute).
  assert (Forall numbers_present ([] ++ ["helmet^0^60"%string])) as H'
    by (constructor; [by vm_compute | constructor]).
  split; [exact H|]. split; [exact H'|].
  apply (load_invalid_item read_number _ _ _ _ _ H H').
  - constructor.
  - by vm_compute.
  - by vm_compute.
Defined.

(** X9: a vector that [load_armor_database] returns has one item for each
    line but the header, and each item has a description that is not empty
    and a positive cost. *)
Theorem load_result_constructed (parse_double : string → Q) (f : string)
    (v : ArmorVector) :
  load_armor_database parse_double (Some f) = Ok (Some v) →
  length v = (length (lines_of f) - 1)%nat ∧ Forall constructed v.
Proof.
  rewrite load_armor_database_lines, load_lines_Some.
  intros (items & H & ->). simpl. split.
  - apply Forall2_length in H. rewrite <- H. destruct (lines_of f); simpl; lia.
  - clear -H. induction H as [|line a lines items Ha _ IH]; constructor; [|done].
    by apply item_of_line_Some in Ha as [? _].
Qed.

Lemma load_result_constructed_witness :
  load_armor_database read_number (Some sample_file)
  = Ok (Some [mkArmorItem "helmet" 10 60; mkArmorItem "shield" 20 100]) ∧
  length [mkArmorItem "helmet" 10 60; mkArmorItem "shield" 20 100]
  = (length (lines_of sample_file) - 1)%nat ∧
  Forall constructed [mkArmorItem "helmet" 10 60; mkArmorItem "shield" 20 100].
Proof.
  assert (load_armor_database read_number (Some sample_file)
          = Ok (Some [mkArmorItem "helmet" 10 60; mkArmorItem "shield" 20 100])) as H
    by (by vm_compute).
  split; [exact H|]. exact (load_result_constructed read_number sample_file _ H).
Defined.

(** X10: where the sums are exact (whole numbers, not negative, totals
    below [2^53]) the totals of [sum_armor_vector] are additive over
    concatenation and do not depend on the order of the items. *)
Theorem sum_armor_vector_additive (l1 l2 l3 : ArmorVector) :
  l3 ≡ₚ l1 ++ l2 → exact_sums l3 →
  (total_cost_of l3 == total_cost_of l1 + total_cost_of l2)%Q ∧
  (total_defense_of l3 == total_defense_of l1 + total_defense_of l2)%Q.
Proof.
  intros [Hc Hd]%totals_Permutation _.
  destruct (totals_app l1 l2) as [Hc' Hd']. split; lra.
Qed.

Lemma sum_armor_vector_additive_witness :
  [item 30 120; item 10 60; item 20 100] ≡ₚ [item 10 60] ++ [item 20 100; item 30 120] ∧
  exact_sums [item 30 120; item 10 60; item 20 100] ∧
  (total_cost_of [item 30 120; item 10 60; item 20 100]
   == total_cost_of [item 10 60] + total_cost_of [item 20 100; item 30 120])%Q.
Proof.
  assert ([item 30 120; item 10 60; item 20 100]
          ≡ₚ [item 10 60] ++ [item 20 100; item 30 120]) as H.
  { simpl. etrans; [apply Permutation_swap|]. apply Permutation_skip, Permutation_swap. }
  assert (exact_sums [item 30 120; item 10 60; item 20 100]) as H'
    by exact_sums_by_evaluation.
  split; [exact H|]. split; [exact H'|].
  exact (proj1 (sum_armor_vector_additive _ _ _ H H')).
Defined.

(** X11: [get_binary] and the value of a binary numeral are inverse to
    each other: for [i] in [[0, 2^n)] the string [get_binary i n], read as a
    binary numeral with the highest bit first, has the value [i]; and for
    every sequence of bits the numeral of its value, at its length, is the
    sequence itself. *)
Theorem get_binary_round_trip (n i : Z) (bs : list bool) :
  0 ≤ n → 0 ≤ i < 2 ^ n →
  encode (is_one <$> get_binary i n) = i ∧
  get_binary (encode bs) (Z.of_nat (length bs)) = bit_char <$> bs.
Proof.
  intros Hn Hi. split; [|apply get_binary_encode].
  apply encode_get_binary. unfold in_range. by rewrite Z2Nat.id.
Qed.

Lemma get_binary_round_trip_witness :
  0 ≤ 4 ∧ 0 ≤ 6 < 2 ^ 4 ∧
  get_binary 6 4 = ["0"; "1"; "1"; "0"]%char ∧
  encode (is_one <$> get_binary 6 4) = 6.
Proof.
  split; [lia|]. split; [lia|]. split; [by vm_compute|].
  apply (get_binary_round_trip 4 6 []); lia.
Defined.

(** X12: [get_binary] pads but never truncates: for a number that is not
    negative the string has [len] characters, or as many as the number has
    binary digits when that is more. *)
Theorem get_binary_length (num len : Z) :
  0 ≤ num →
  Z.of_nat (length (get_binary num len)) = Z.max 0 (Z.max len (binary_digits num)).
Proof. apply length_get_binary_nonneg. Qed.

Lemma get_binary_length_witness :
  0 ≤ 5 ∧ get_binary 5 2 = ["0"; "1"; "1"]%char ∧
  Z.of_nat (length (get_binary 5 2)) = Z.max 0 (Z.max 2 (binary_digits 5)).
Proof.
  split; [lia|]. split; [by vm_compute|]. apply (get_binary_length 5 2). lia.
Defined.

(** X13: [greedy_max_defense] never fails, for any vector and any budget:
    the position it reads is always within the working copy; and its output
    takes each item of the input at most once. *)
Theorem greedy_returns_sub_multiset (armors : ArmorVector) (budget : Q) :
  ∃ out, greedy_max_defense armors budget = Ok out
         ∧ out ⊆+ armors ∧ (length out ≤ length armors)%nat.
Proof.
  destruct (greedy_submseteq armors budget) as (out & Hrun & Hsub).
  exists out. split; [done|]. split; [done|]. by apply submseteq_length.
Qed.

(** X14: the output of [greedy_max_defense] is ordered from the greatest
    value-to-cost ratio down. *)
Theorem greedy_output_by_ratio (armors : ArmorVector) (budget : Q) :
  ∃ out, greedy_max_defense armors budget = Ok out ∧ by_ratio out.
Proof. apply greedy_by_ratio. Qed.

(** X15: when the costs are positive, the sums are exact (whole numbers,
    totals below [2^53]) and the whole vector fits the budget,
    [greedy_max_defense] returns all the items (in the order of their
    ratios). *)
Theorem greedy_all_fit (armors : ArmorVector) (budget : Q) :
  positive_costs armors → exact_sums armors → feasible budget armors →
  ∃ out, greedy_max_defense armors budget = Ok out ∧ out ≡ₚ armors ∧ by_ratio out.
Proof.
  intros Hpos _ Hfit.
  destruct (greedy_takes_all armors budget Hpos Hfit) as (out & Hrun & Hperm).
  destruct (greedy_by_ratio armors budget) as (out' & Hrun' & Hsorted).
  assert (out' = out) as -> by congruence. eauto.
Qed.

Lemma greedy_all_fit_witness :
  positive_costs scenario ∧ exact_sums scenario ∧ feasible 60 scenario ∧
  greedy_max_defense scenario 60 = Ok scenario.
Proof.
  assert (positive_costs scenario) as H1 by by_evaluation.
  assert (exact_sums scenario) as H2 by exact_sums_by_evaluation.
  assert (feasible 60 scenario) as H3 by (by vm_compute).
  split; [exact H1|]. split; [exact H2|]. split; [exact H3|].
  destruct (greedy_all_fit scenario 60 H1 H2 H3) as (out & Hrun & _).
  rewrite Hrun. vm_compute in Hrun. by injection Hrun as <-.
Defined.

(** X16: with positive costs and a budget that is zero or negative,
    [greedy_max_defense] accepts no item and returns the empty vector. *)
Theorem greedy_no_budget (armors : ArmorVector) (budget : Q) :
  (budget <= 0)%Q → positive_costs armors →
  greedy_max_defense armors budget = Ok [].
Proof. apply greedy_nothing_fits. Qed.

Lemma greedy_no_budget_witness :
  (0 <= 0)%Q ∧ positive_costs scenario ∧ greedy_max_defense scenario 0 = Ok [].
Proof.
  assert (positive_costs scenario) as H by by_evaluation.
  split; [done|]. split; [exact H|].
  apply (greedy_no_budget scenario 0); [done | exact H].
Defined.

(** X17: [greedy_max_defense] returns the empty vector only when no item
    fits the budget on its own: every item then costs more than the
    budget. *)
Theorem greedy_empty_only_if_nothing_fits (armors : ArmorVector) (budget : Q) :
  greedy_max_defense armors budget = Ok [] →
  Forall (fun a => budget < cost a)%Q armors.
Proof. apply greedy_empty_output. Qed.

Lemma greedy_empty_only_if_nothing_fits_witness :
  greedy_max_defense scenario 5 = Ok [] ∧
  Forall (fun a => 5 < cost a)%Q scenario.
Proof.
  assert (greedy_max_defense scenario 5 = Ok []) as H by (by vm_compute).
  split; [exact H|]. exact (greedy_empty_only_if_nothing_fits scenario 5 H).
Defined.

(** X18: for up to 30 items and a budget that is not negative,
    [exhaustive_max_defense] returns a sub-vector of the input that fits
    the budget and whose total defense is at least that of every
    sub-vector that fits the budget. *)
Theorem exhaustive_optimal_up_to_30 (armors : ArmorVector) (budget : Q) :
  (length armors ≤ 30)%nat → (0 <= budget)%Q →
  ∃ out, exhaustive_max_defense armors budget = Ok out
    ∧ out `sublist_of` armors
    ∧ feasible budget out
    ∧ ∀ s, s `sublist_of` armors → feasible budget s →
           (total_defense_of s <= total_defense_of out)%Q.
Proof. apply exhaustive_optimal. Qed.

Lemma exhaustive_optimal_up_to_30_witness :
  (length scenario ≤ 30)%nat ∧ (0 <= 50)%Q ∧
  exhaustive_max_defense scenario 50 = Ok [item 20 100; item 30 120] ∧
  (total_defense_of [item 10 60; item 20 100]
   <= total_defense_of [item 20 100; item 30 120])%Q.
Proof.
  assert (length scenario ≤ 30)%nat as H1 by (simpl; lia).
  assert (0 <= 50)%Q as H2 by done.
  split; [exact H1|]. split; [exact H2|].
  destruct (exhaustive_optimal_up_to_30 scenario 50 H1 H2)
    as (out & Hrun & _ & _ & Hmax).
  assert (out = [item 20 100; item 30 120]) as ->.
  { vm_compute in Hrun. by injection Hrun as <-. }
  split; [done|]. apply Hmax.
  - unfold scenario. repeat constructor.
  - by vm_compute.
Defined.

(** X19: for up to 30 items and a budget that is not negative, the result
    of [exhaustive_max_defense] is a candidate that fits the budget, whose
    total defense no feasible candidate exceeds, and it is the one of the
    lowest bitmask among the feasible candidates of greatest total defense:
    every feasible candidate of a lower bitmask has a strictly smaller
    total defense. *)
Theorem exhaustive_lowest_bitmask (armors : ArmorVector) (budget : Q) :
  (length armors ≤ 30)%nat → (0 <= budget)%Q →
  ∃ i, 0 ≤ i < 2 ^ Z.of_nat (length armors)
    ∧ exhaustive_max_defense armors budget
      = Ok (candidate armors (Z.of_nat (length armors)) i)
    ∧ feasible budget (candidate armors (Z.of_nat (length armors)) i)
    ∧ (∀ i', 0 ≤ i' < 2 ^ Z.of_nat (length armors) →
         feasible budget (candidate armors (Z.of_nat (length armors)) i') →
         (total_defense_of (candidate armors (Z.of_nat (length armors)) i')
          <= total_defense_of (candidate armors (Z.of_nat (length armors)) i))%Q)
    ∧ (∀ i', 0 ≤ i' < i →
         feasible budget (candidate armors (Z.of_nat (length armors)) i') →
         (total_defense_of (candidate armors (Z.of_nat (length armors)) i')
          < total_defense_of (candidate armors (Z.of_nat (length armors)) i))%Q).
Proof. intros Hlen Hb. by apply exhaustive_spec. Qed.

Lemma exhaustive_lowest_bitmask_witness :
  (length [item 1 5; item 2 5] ≤ 30)%nat ∧ (0 <= 2)%Q ∧
  candidate [item 1 5; item 2 5] 2 1 = [item 2 5] ∧
  candidate [item 1 5; item 2 5] 2 2 = [item 1 5] ∧
  feasible 2 [item 2 5] ∧ feasible 2 [item 1 5] ∧
  exhaustive_max_defense [item 1 5; item 2 5] 2 = Ok [item 2 5] ∧
  ∃ i, 0 ≤ i < 2 ^ Z.of_nat (length [item 1 5; item 2 5])
    ∧ exhaustive_max_defense [item 1 5; item 2 5] 2
      = Ok (candidate [item 1 5; item 2 5]
              (Z.of_nat (length [item 1 5; item 2 5])) i).
Proof.
  assert (length [item 1 5; item 2 5] ≤ 30)%nat as H1 by (simpl; lia).
  assert (0 <= 2)%Q as H2 by done.
  split; [exact H1|]. split; [exact H2|].
  do 5 (split; [by vm_compute|]).
  destruct (exhaustive_lowest_bitmask [item 1 5; item 2 5] 2 H1 H2)
    as (i & Hi & Hrun & _).
  exists i. by split.
Defined.

(** X20: for up to 30 items, a budget that is not negative and sums that
    are exact (whole numbers, not negative, totals below [2^53]), both
    searches return a vector and the total defense of the exhaustive result
    is at least that of the greedy result. *)
Theorem exhaustive_beats_greedy_up_to_30 (armors : ArmorVector) (budget : Q) :
  (length armors ≤ 30)%nat → (0 <= budget)%Q → exact_sums armors →
  ∃ out_e out_g,
    exhaustive_max_defense armors budget = Ok out_e
    ∧ greedy_max_defense armors budget = Ok out_g
    ∧ (total_defense_of out_g <= total_defense_of out_e)%Q.
Proof. intros Hlen Hb _. by apply exhaustive_ge_greedy. Qed.

Lemma exhaustive_beats_greedy_up_to_30_witness :
  (length scenario ≤ 30)%nat ∧ (0 <= 50)%Q ∧ exact_sums scenario ∧
  exhaustive_max_defense scenario 50 = Ok [item 20 100; item 30 120] ∧
  greedy_max_defense scenario 50 = Ok [item 10 60; item 20 100] ∧
  ∃ out_e out_g,
    exhaustive_max_defense scenario 50 = Ok out_e
    ∧ greedy_max_defense scenario 50 = Ok out_g
    ∧ (total_defense_of out_g <= total_defense_of out_e)%Q.
Proof.
  assert (length scenario ≤ 30)%nat as H1 by (simpl; lia).
  assert (0 <= 50)%Q as H2 by done.
  assert (exact_sums scenario) as H3 by exact_sums_by_evaluation.
  split; [exact H1|]. split; [exact H2|]. split; [exact H3|].
  split; [by vm_compute|]. split; [by vm_compute|].
  exact (exhaustive_beats_greedy_up_to_30 scenario 50 H1 H2 H3).
Defined.

(** X21: for [0 <= n <= 30] the doubling loop gives [pn = 2^n] without
    overflow, and the loop over the subsets visits the bitmasks
    [0, 1, ..., 2^n - 1], each once and in ascending order. *)
Theorem enumeration_up_to_30 (n : Z) :
  0 ≤ n ≤ 30 → power_set_size n = 2 ^ n ∧ enumeration n = seqZ 0 (2 ^ n).
Proof.
  intros Hn. split; [|by apply enumeration_small].
  rewrite power_set_size_small by lia. by rewrite Z2Nat.id by lia.
Qed.

Lemma enumeration_up_to_30_witness :
  0 ≤ 3 ≤ 30 ∧ enumeration 3 = [0; 1; 2; 3; 4; 5; 6; 7] ∧
  power_set_size 3 = 2 ^ 3.
Proof.
  split; [lia|]. split; [by vm_compute|].
  apply (enumeration_up_to_30 3). lia.
Defined.

(** X22: with 64 items or more [exhaustive_max_defense] stops at its
    assertion [n < 64], whatever the items and the budget are. *)
Theorem exhaustive_asserts_size (armors : ArmorVector) (budget : Q) :
  64 ≤ Z.of_nat (length armors) ≤ INT_MAX →
  exhaustive_max_defense armors budget = Fail assertion_failure.
Proof. apply exhaustive_assertion. Qed.

Lemma exhaustive_asserts_size_witness :
  64 ≤ Z.of_nat (length (replicate 64 (item 1 1))) ≤ INT_MAX ∧
  exhaustive_max_defense (replicate 64 (item 1 1)) 5 = Fail assertion_failure.
Proof.
  assert (64 ≤ Z.of_nat (length (replicate 64 (item 1 1))) ≤ INT_MAX) as H
    by (rewrite length_replicate; unfold INT_MAX; lia).
  split; [exact H|]. exact (exhaustive_asserts_size _ 5 H).
Defined.

(** X23: with 31 to 63 items the assertion passes but, with [pn] wrapping
    around as a 32-bit [int], the loop over the subsets does not run:
    [best_set] stays empty and the output loop indexes it past its end,
    whatever the items and the budget are. *)
Theorem exhaustive_fails_from_31_items (armors : ArmorVector) (budget : Q) :
  (31 ≤ length armors < 64)%nat →
  exhaustive_max_defense armors budget = Fail out_of_range.
Proof. apply exhaustive_overflow. Qed.

Lemma exhaustive_fails_from_31_items_witness :
  (31 ≤ length (replicate 40 (item 2 3)) < 64)%nat ∧
  exhaustive_max_defense (replicate 40 (item 2 3)) 7 = Fail out_of_range.
Proof.
  assert (31 ≤ length (replicate 40 (item 2 3)) < 64)%nat as H
    by (rewrite length_replicate; lia).
  split; [exact H|]. exact (exhaustive_fails_from_31_items _ 7 H).
Defined.

(** X24: with a negative budget, positive costs and 2 to 63 items, no
    subset passes the test [current_cost <= total_cost]: [best_set] stays
    empty and the output loop indexes it past its end. *)
Theorem exhaustive_fails_on_negative_budget (armors : ArmorVector) (budget : Q) :
  (2 ≤ length armors < 64)%nat → (budget < 0)%Q → positive_costs armors →
  exhaustive_max_defense armors budget = Fail out_of_range.
Proof. apply exhaustive_negative_budget. Qed.

Lemma exhaustive_fails_on_negative_budget_witness :
  (2 ≤ length scenario < 64)%nat ∧ (-3 < 0)%Q ∧ positive_costs scenario ∧
  exhaustive_max_defense scenario (-3) = Fail out_of_range.
Proof.
  assert (2 ≤ length scenario < 64)%nat as H1 by (simpl; lia).
  assert (-3 < 0)%Q as H2 by done.
  assert (positive_costs scenario) as H3 by by_evaluation.
  split; [exact H1|]. split; [exact H2|]. split; [exact H3|].
  exact (exhaustive_fails_on_negative_budget scenario (-3) H1 H2 H3).
Defined.

(** X25: when there are at most 30 items, all of positive defense, the
    sums are exact (whole numbers, totals below [2^53]) and the whole
    vector fits a budget that is not negative, [exhaustive_max_defense]
    returns the whole vector. *)
Theorem exhaustive_all_fit (armors : ArmorVector) (budget : Q) :
  (length armors ≤ 30)%nat → Forall (fun a => 0 < defense a)%Q armors →
  exact_sums armors → feasible budget armors → (0 <= budget)%Q →
  exhaustive_max_defense armors budget = Ok armors.
Proof. intros Hlen Hpos _. by apply exhaustive_takes_all. Qed.

Lemma exhaustive_all_fit_witness :
  (length scenario ≤ 30)%nat ∧ Forall (fun a => 0 < defense a)%Q scenario ∧
  exact_sums scenario ∧ feasible 60 scenario ∧ (0 <= 60)%Q ∧
  exhaustive_max_defense scenario 60 = Ok scenario.
Proof.
  assert (length scenario ≤ 30)%nat as H1 by (simpl; lia).
  assert (Forall (fun a => 0 < defense a)%Q scenario) as H2 by by_evaluation.
  assert (exact_sums scenario) as H5 by exact_sums_by_evaluation.
  assert (feasible 60 scenario) as H3 by (by vm_compute).
  assert (0 <= 60)%Q as H4 by done.
  split; [exact H1|]. split; [exact H2|]. split; [exact H5|].
  split; [exact H3|]. split; [exact H4|].
  exact (exhaustive_all_fit scenario 60 H1 H2 H5 H3 H4).
Defined.

(** X26: with a budget of zero, positive costs and at most 30 items,
    [exhaustive_max_defense] returns the empty vector. *)
Theorem exhaustive_no_budget (armors : ArmorVector) (budget : Q) :
  (length armors ≤ 30)%nat → (budget == 0)%Q → positive_costs armors →
  exhaustive_max_defense armors budget = Ok [].
Proof. apply exhaustive_zero_budget. Qed.

Lemma exhaustive_no_budget_witness :
  (length scenario ≤ 30)%nat ∧ (0 == 0)%Q ∧ positive_costs scenario ∧
  exhaustive_max_defense scenario 0 = Ok [].
Proof.
  assert (length scenario ≤ 30)%nat as H1 by (simpl; lia).
  assert (0 == 0)%Q as H2 by done.
  assert (positive_costs scenario) as H3 by by_evaluation.
  split; [exact H1|]. split; [exact H2|]. split; [exact H3|].
  exact (exhaustive_no_budget scenario 0 H1 H2 H3).
Defined.

(** X27: on the empty vector both searches return the empty vector, for
    every budget, negative ones included. *)
Theorem empty_vector_both_searches (budget : Q) :
  greedy_max_defense [] budget = Ok [] ∧ exhaustive_max_defense [] budget = Ok [].
Proof. split; [apply greedy_empty | apply exhaustive_empty]. Qed.
